(** * A Redis-backed FIFO job queue: model and verification

    The development embeds the message queue of the repository (classes
    [Job] and [Queue], the utilities [formatMessageQueueKey] and
    [convertToJSONString], and the Lua scripts [add-job.lua] and
    [remove-job.lua]) as functions over an explicit Redis store, and proves
    properties of admission, dispatch, completion bookkeeping, removal and
    destruction. *)

From stdpp Require Import gmap strings list fin_maps.
From Stdlib Require Import Ascii.

Local Open Scope string_scope.
Local Open Scope list_scope.

(** * The store

    Only the Redis commands the queue issues are modelled.  A key holds a
    hash, a list or a set; the three kinds live in three typed key spaces
    (the queue never reuses a key at another type, so the WRONGTYPE error of
    Redis cannot arise).  A key that is absent reads as the empty aggregate,
    and an aggregate that becomes empty is removed with its key, as Redis
    does.  Lists are written left to right: the head of the Rocq list is the
    left end (LPUSH side), its last element the right end (RPOP side).
    Hash values have an arbitrary type [V].  Every command succeeds: a lost
    connection is not modelled. *)
Module Redis.
Section Commands.
Context {V : Type}.

Record db := Db {
  hashes : gmap string (gmap string V);
  lists : gmap string (list string);
  sets : gmap string (gset string)
}.

Definition empty : db := Db ∅ ∅ ∅.

Definition hash_of (r : db) (key : string) : gmap string V :=
  default ∅ (hashes r !! key).
Definition list_of (r : db) (key : string) : list string :=
  default [] (lists r !! key).
Definition set_of (r : db) (key : string) : gset string :=
  default ∅ (sets r !! key).

Definition store_hash (r : db) (key : string) (h : gmap string V) : db :=
  Db (if decide (h = ∅) then delete key (hashes r) else <[key:=h]> (hashes r))
     (lists r) (sets r).
Definition store_list (r : db) (key : string) (l : list string) : db :=
  Db (hashes r)
     (match l with [] => delete key (lists r) | _ => <[key:=l]> (lists r) end)
     (sets r).
Definition store_set (r : db) (key : string) (s : gset string) : db :=
  Db (hashes r) (lists r)
     (if decide (s = ∅) then delete key (sets r) else <[key:=s]> (sets r)).

(** HEXISTS key field: 1 or 0. *)
Definition hexists (r : db) (key field : string) : Z :=
  match hash_of r key !! field with Some _ => 1%Z | None => 0%Z end.
(** HGET key field: the value, or nil. *)
Definition hget (r : db) (key field : string) : option V :=
  hash_of r key !! field.
(** HSET key field value. *)
Definition hset (r : db) (key field : string) (v : V) : db :=
  store_hash r key (<[field:=v]> (hash_of r key)).
(** HDEL key field. *)
Definition hdel (r : db) (key field : string) : db :=
  store_hash r key (delete field (hash_of r key)).

(** LPUSH key element: insert at the head (left end). *)
Definition lpush (r : db) (key elem : string) : db :=
  store_list r key (elem :: list_of r key).
(** LREM key 0 element: remove every occurrence of the element.  The
    count argument is 0 at each call site of the queue. *)
Definition lrem (r : db) (key elem : string) : db :=
  store_list r key (filter (λ x, x ≠ elem) (list_of r key)).
(** BRPOPLPUSH source destination 0: one atomic command that takes the
    last (right-most) element of the source and pushes it at the head of
    the destination.  With timeout 0 the call blocks while the source is
    empty: [None] stands for a call that has not returned. *)
Definition brpoplpush (r : db) (source destination : string)
  : option (db * string) :=
  match last (list_of r source) with
  | None => None
  | Some x =>
      Some (lpush (store_list r source (removelast (list_of r source)))
                  destination x, x)
  end.

(** SISMEMBER key member: 1 or 0. *)
Definition sismember (r : db) (key member : string) : Z :=
  if decide (member ∈ set_of r key) then 1%Z else 0%Z.
(** SADD key member. *)
Definition sadd (r : db) (key member : string) : db :=
  store_set r key ({[member]} ∪ set_of r key).
(** SREM key member. *)
Definition srem (r : db) (key member : string) : db :=
  store_set r key (set_of r key ∖ {[member]}).

(** [exists_key r key]: the key holds a value. *)
Definition exists_key (r : db) (key : string) : bool :=
  bool_decide (is_Some (hashes r !! key))
  || bool_decide (is_Some (lists r !! key))
  || bool_decide (is_Some (sets r !! key)).
Definition del1 (r : db) (key : string) : db :=
  Db (delete key (hashes r)) (delete key (lists r)) (delete key (sets r)).
(** DEL key [key ...]: removes the keys, returns how many existed. *)
Fixpoint del (r : db) (keys : list string) : db * Z :=
  match keys with
  | [] => (r, 0%Z)
  | key :: keys' =>
      let n := if exists_key r key then 1%Z else 0%Z in
      let '(r', m) := del (del1 r key) keys' in
      (r', (n + m)%Z)
  end.

(** The commands a MULTI block of the queue can hold, and EXEC, which
    runs the queued commands in order as one transaction. *)
Inductive command :=
| LREM (key elem : string)
| HSET (key field : string) (v : V)
| HDEL (key field : string)
| SADD (key member : string).

Definition run_command (r : db) (c : command) : db :=
  match c with
  | LREM key elem => lrem r key elem
  | HSET key field v => hset r key field v
  | HDEL key field => hdel r key field
  | SADD key member => sadd r key member
  end.

Definition exec (r : db) (multi : list command) : db :=
  foldl run_command r multi.
End Commands.
Global Arguments db : clear implicits.
Global Arguments command : clear implicits.
End Redis.

(** * utils.ts *)

Inductive JobStatuses := created | waiting | active | succeeded | failed.

Global Instance JobStatuses_eq_dec : EqDecision JobStatuses.
Proof. solve_decision. Defined.

Definition MQ_PREFIX : string := "UpstashMQ".

Definition formatMessageQueueKey (queueName key : string) : string :=
  MQ_PREFIX +:+ ":" +:+ queueName +:+ ":" +:+ key.

(** The text [JSON.stringify({data, status})] is represented by the object
    it denotes, a record with the two fields; [JSON.parse] of that text
    gives the record back, so that [parsedData.data] and
    [parsedData.status] are its projections.  (Payloads are taken to be
    JSON values, on which parsing inverts printing.) *)
Record serialized (T : Type) := Serialized {
  ser_data : T;
  ser_status : JobStatuses
}.
Global Arguments Serialized {T} _ _.
Global Arguments ser_data {T} _.
Global Arguments ser_status {T} _.

Definition convertToJSONString {T} (data : T) (status : JobStatuses)
  : serialized T :=
  Serialized data status.

(** JavaScript truthiness of a string: every string but the empty one. *)
Definition truthy (s : string) : bool :=
  match s with EmptyString => false | String _ _ => true end.

(** * The Lua scripts

    A script runs as one atomic command.  KEYS and ARGV are passed as
    separate arguments; a script that ends without [return] yields nil. *)
Module Lua.
Section Scripts.
Context {V : Type}.

(** add-job.lua: key 1 is the jobs hash, key 2 the waiting list, arg 1 the
    job id, arg 2 the job data. *)
Definition add_job (KEYS1 KEYS2 : string) (ARGV1 : string) (ARGV2 : V)
    (r : Redis.db V) : Redis.db V * option string :=
  let jobId := ARGV1 in
  let payload := ARGV2 in
  if decide (Redis.hexists r KEYS1 jobId = 1%Z) then (r, None)
  else
    let r := Redis.hset r KEYS1 jobId payload in
    let r := Redis.lpush r KEYS2 jobId in
    (r, Some jobId).

(** remove-job.lua: keys 1..5 are succeeded, failed, waiting, active and
    jobs; arg 1 is the job id. *)
Definition remove_job (KEYS1 KEYS2 KEYS3 KEYS4 KEYS5 : string)
    (ARGV1 : string) (r : Redis.db V) : Redis.db V * option string :=
  let jobId := ARGV1 in
  let r :=
    if decide ((Redis.sismember r KEYS1 jobId
                + Redis.sismember r KEYS2 jobId)%Z = 0%Z)
    then
      let r := Redis.lrem r KEYS3 jobId in
      Redis.lrem r KEYS4 jobId
    else r in
  let r := Redis.srem r KEYS1 jobId in
  let r := Redis.srem r KEYS2 jobId in
  let r := Redis.hdel r KEYS5 jobId in
  (r, None).
End Scripts.
End Lua.

(** * job.ts

    The Redis handle of [OwnerQueue] is the store that every operation
    takes and returns; a method that assigns to a field of [this] returns
    the updated object. *)
Module Job.
Record OwnerQueue := { queueName : string }.

Record t (T : Type) := Mk {
  id : string;
  status : JobStatuses;
  config : OwnerQueue;
  data : T
}.
Global Arguments Mk {T} _ _ _ _.
Global Arguments id {T} _.
Global Arguments status {T} _.
Global Arguments config {T} _.
Global Arguments data {T} _.

Section Methods.
Context {T : Type}.

(** [new Job(ownerConfig, data, jobId)]; when the caller gives no id,
    [jobId] is the value [randomUUID()] returned. *)
Definition constructor (ownerConfig : OwnerQueue) (data : T) (jobId : string)
  : t T :=
  Mk jobId created ownerConfig data.

Definition createQueueKey (ownerConfig : OwnerQueue) (key : string) : string :=
  formatMessageQueueKey (queueName ownerConfig) key.

Definition set_id (this : t T) (i : string) : t T :=
  Mk i (status this) (config this) (data this).
Definition set_status (this : t T) (s : JobStatuses) : t T :=
  Mk (id this) s (config this) (data this).

Definition save (this : t T) (r : Redis.db (serialized T))
  : t T * Redis.db (serialized T) * option string :=
  let '(r, resJobId) :=
    Lua.add_job (createQueueKey (config this) "jobs")
                (createQueueKey (config this) "waiting")
                (id this)
                (convertToJSONString (data this) (status this)) r in
  match resJobId with
  | Some res =>
      if truthy res then (set_id this res, r, Some res)
      else (this, r, None)
  | None => (this, r, None)
  end.

Definition fromData (ownerConfig : OwnerQueue) (jobId : string)
    (stringifiedJobData : serialized T) : t T :=
  let parsedData := stringifiedJobData in
  let job := constructor ownerConfig (ser_data parsedData) jobId in
  set_status job (ser_status parsedData).

(** [fromId] is called on a throw-away job built from the queue's
    configuration and reads nothing else of it, so it takes the
    configuration. *)
Definition fromId (ownerConfig : OwnerQueue) (jobId : string)
    (r : Redis.db (serialized T)) : option (t T) :=
  match Redis.hget r (createQueueKey ownerConfig "jobs") jobId with
  | Some jobData => Some (fromData ownerConfig jobId jobData)
  | None => None
  end.
End Methods.
End Job.

(** * queue.ts *)
Module Queue.

(** The object passed to [new Queue(...)]: the retention flags are
    optional. *)
Record QueueOptions := {
  opt_queueName : string;
  opt_keepOnSuccess : option bool;
  opt_keepOnFailure : option bool
}.

Record QueueConfig := {
  queueName : string;
  keepOnSuccess : bool;
  keepOnFailure : bool
}.

(** The queue object: its configuration and the counters of the dispatch
    loop.  The worker is passed to the functions that call it. *)
Record t := Mk {
  config : QueueConfig;
  concurrency : Z;
  running : Z;
  queued : Z
}.

(** [new Queue(config)]: a missing flag defaults to [true]. *)
Definition constructor (config : QueueOptions) : t :=
  Mk {| queueName := opt_queueName config;
        keepOnFailure := default true (opt_keepOnFailure config);
        keepOnSuccess := default true (opt_keepOnSuccess config) |}
     0 0 0.

Definition createQueueKey (this : t) (key : string) : string :=
  formatMessageQueueKey (queueName (config this)) key.

(** The queue passes its configuration where a job expects an
    [OwnerQueue]. *)
Definition owner (this : t) : Job.OwnerQueue :=
  {| Job.queueName := queueName (config this) |}.

(** What a call of the worker does: it returns (or its promise resolves), or
    it throws (or its promise rejects). *)
Inductive outcome := Resolves | Throws.

(** Observable actions of the dispatch loop, in the order they happen:
    the worker is called on the payload [data] of the job [jobId];
    [finishJob] has run for the job; [this.emit(event, jobId)];
    [console.error] reports a job that was not found; an extra
    [setImmediate(this.jobTick)] was issued. *)
Inductive effect (T : Type) :=
| WorkerCalled (jobId : string) (data : T)
| BookkeepingDone (jobId : string)
| Emitted (event : JobStatuses) (jobId : string)
| JobNotFound (jobId : string)
| TickScheduled.
Global Arguments WorkerCalled {T} _ _.
Global Arguments BookkeepingDone {T} _.
Global Arguments Emitted {T} _ _.
Global Arguments JobNotFound {T} _.
Global Arguments TickScheduled {T}.

Section Methods.
Context {T : Type}.
Abbreviation store := (Redis.db (serialized T)).

(** [add(payload)]; [uuid] is the id [randomUUID()] gives the new job. *)
Definition add (this : t) (payload : T) (uuid : string) (r : store)
  : store * option string :=
  let '(_, r, res) := Job.save (Job.constructor (owner this) payload uuid) r in
  (r, res).

Definition process (this : t) (concurrency : Z) : t :=
  Mk (config this) concurrency 0 1.

Definition getNextJob (this : t) (r : store) : option (store * string) :=
  Redis.brpoplpush r (createQueueKey this "waiting")
                     (createQueueKey this "active").

Definition finishJob (this : t) (job : Job.t T) (hasFailed : bool) (r : store)
  : store * (JobStatuses * Job.t T) :=
  let multi := [Redis.LREM (createQueueKey this "active") (Job.id job)] in
  let '(multi, job) :=
    if hasFailed then
      (if keepOnFailure (config this) then
         multi ++ [Redis.HSET (createQueueKey this "jobs") (Job.id job)
                     (convertToJSONString (Job.data job) (Job.status job));
                   Redis.SADD (createQueueKey this "failed") (Job.id job)]
       else
         multi ++ [Redis.HDEL (createQueueKey this "jobs") (Job.id job)],
       Job.set_status job failed)
    else
      (if keepOnSuccess (config this) then
         multi ++ [Redis.HSET (createQueueKey this "jobs") (Job.id job)
                     (convertToJSONString (Job.data job) (Job.status job));
                   Redis.SADD (createQueueKey this "succeeded") (Job.id job)]
       else
         multi ++ [Redis.HDEL (createQueueKey this "jobs") (Job.id job)],
       Job.set_status job succeeded) in
  let r := Redis.exec r multi in
  (r, (Job.status job, job)).

Definition executeJob (this : t) (worker : T → outcome)
    (jobCreatedById : Job.t T) (r : store) : t * store * list (effect T) :=
  let called :=
    [WorkerCalled (Job.id jobCreatedById) (Job.data jobCreatedById)] in
  let '(this, hasError) :=
    match worker (Job.data jobCreatedById) with
    | Resolves =>
        (Mk (config this) (concurrency this)
            (running this - 1) (queued this + 1), false)
    | Throws => (this, true)
    end in
  let '(r, (jobStatus, job)) := finishJob this jobCreatedById hasError r in
  (this, r,
   called ++ [BookkeepingDone (Job.id jobCreatedById);
              Emitted jobStatus (Job.id job)]).

(** One run of the callback chain of [jobTick], from the moment
    [getNextJob] answers to the moment the next tick is due; [None] while
    the blocking pop has not returned.  [TickScheduled] records the extra
    [setImmediate(this.jobTick)] of the concurrency test. *)
Definition jobTick (this : t) (worker : T → outcome) (r : store)
  : option (t * store * list (effect T)) :=
  match getNextJob this r with
  | None => None
  | Some (r, jobId) =>
      let this := Mk (config this) (concurrency this)
                     (running this + 1) (queued this - 1) in
      let '(this, spawned) :=
        if decide (running this + queued this < concurrency this)%Z then
          (Mk (config this) (concurrency this)
              (running this) (queued this + 1), [TickScheduled])
        else (this, []) in
      if negb (truthy jobId) then Some (this, r, spawned)
      else
        match Job.fromId (owner this) jobId r with
        | Some jobCreatedById =>
            let '(this, r, log) := executeJob this worker jobCreatedById r in
            Some (this, r, spawned ++ log)
        | None => Some (this, r, spawned ++ [JobNotFound jobId])
        end
  end.

(** The chain of ticks that [process] starts: each tick schedules its
    successor when it is over.  [fuel] bounds the number of ticks looked
    at; the chain stops early when the pop blocks on an empty list. *)
Fixpoint ticks (fuel : nat) (this : t) (worker : T → outcome) (r : store)
  : t * store * list (effect T) :=
  match fuel with
  | O => (this, r, [])
  | S fuel' =>
      match jobTick this worker r with
      | None => (this, r, [])
      | Some (this, r, log) =>
          let '(this, r, log') := ticks fuel' this worker r in
          (this, r, log ++ log')
      end
  end.

Definition removeJob (this : t) (jobId : string) (r : store)
  : store * option string :=
  Lua.remove_job (createQueueKey this "succeeded")
                 (createQueueKey this "failed")
                 (createQueueKey this "waiting")
                 (createQueueKey this "active")
                 (createQueueKey this "jobs")
                 jobId r.

Definition destroy (this : t) (r : store) : store * Z :=
  let args := map (λ key, createQueueKey this key)
                  ["id"; "jobs"; "waiting"; "active"; "succeeded"; "failed"] in
  Redis.del r args.
End Methods.
End Queue.

(** * The completion path with its effects in order

    [finishJob] and [executeJob] once more, in a state-and-writer monad
    over the store.  The three operations that act on the outside world
    each append their own entry to the trace at the moment they run: the
    awaited call of the worker, [multi.exec()] with the commands queued on
    the transaction, and [this.emit].  A computation that never runs
    [multi.exec()] has no [Executed] entry in its trace. *)
Module Effects.
Section Effects.
Context {T : Type}.
Abbreviation store := (Redis.db (serialized T)).

Inductive entry :=
| Worked (data : T) (o : Queue.outcome)
| Executed (multi : list (Redis.command (serialized T)))
| Emit (event : JobStatuses) (jobId : string).

Definition M (A : Type) : Type := store → A * store * list entry.

Definition ret {A} (a : A) : M A := λ r, (a, r, []).
Definition bind {A B} (m : M A) (k : A → M B) : M B :=
  λ r, let '(a, r1, t1) := m r in
       let '(b, r2, t2) := k a r1 in
       (b, r2, t1 ++ t2).

(** [await this.worker(data)] *)
Definition call (worker : T → Queue.outcome) (data : T) : M Queue.outcome :=
  λ r, (worker data, r, [Worked data (worker data)]).
(** [await multi.exec()] *)
Definition exec (multi : list (Redis.command (serialized T))) : M unit :=
  λ r, (tt, Redis.exec r multi, [Executed multi]).
(** [this.emit(event, jobId)] *)
Definition emit (event : JobStatuses) (jobId : string) : M unit :=
  λ r, (tt, r, [Emit event jobId]).

Definition finishJob (this : Queue.t) (job : Job.t T) (hasFailed : bool)
  : M (JobStatuses * Job.t T) :=
  let multi :=
    [Redis.LREM (Queue.createQueueKey this "active") (Job.id job)] in
  let '(multi, job) :=
    if hasFailed then
      (if Queue.keepOnFailure (Queue.config this) then
         multi ++ [Redis.HSET (Queue.createQueueKey this "jobs") (Job.id job)
                     (convertToJSONString (Job.data job) (Job.status job));
                   Redis.SADD (Queue.createQueueKey this "failed")
                     (Job.id job)]
       else
         multi ++ [Redis.HDEL (Queue.createQueueKey this "jobs")
                     (Job.id job)],
       Job.set_status job failed)
    else
      (if Queue.keepOnSuccess (Queue.config this) then
         multi ++ [Redis.HSET (Queue.createQueueKey this "jobs") (Job.id job)
                     (convertToJSONString (Job.data job) (Job.status job));
                   Redis.SADD (Queue.createQueueKey this "succeeded")
                     (Job.id job)]
       else
         multi ++ [Redis.HDEL (Queue.createQueueKey this "jobs")
                     (Job.id job)],
       Job.set_status job succeeded) in
  bind (exec multi) (λ _, ret (Job.status job, job)).

Definition executeJob (this : Queue.t) (worker : T → Queue.outcome)
    (jobCreatedById : Job.t T) : M Queue.t :=
  bind (call worker (Job.data jobCreatedById)) (λ o,
    let '(this, hasError) :=
      match o with
      | Queue.Resolves =>
          (Queue.Mk (Queue.config this) (Queue.concurrency this)
                    (Queue.running this - 1) (Queue.queued this + 1), false)
      | Queue.Throws => (this, true)
      end in
    bind (finishJob this jobCreatedById hasError) (λ '(jobStatus, job),
      bind (emit jobStatus (Job.id job)) (λ _, ret this))).
End Effects.
Global Arguments entry : clear implicits.
End Effects.

(** * The five structures of a queue *)
Module View.
Section View.
Context {T : Type}.
Implicit Type r : Redis.db (serialized T).

Definition jobs (queueName : string) r : gmap string (serialized T) :=
  Redis.hash_of r (formatMessageQueueKey queueName "jobs").
Definition waiting (queueName : string) r : list string :=
  Redis.list_of r (formatMessageQueueKey queueName "waiting").
Definition active (queueName : string) r : list string :=
  Redis.list_of r (formatMessageQueueKey queueName "active").
Definition succeeded (queueName : string) r : gset string :=
  Redis.set_of r (formatMessageQueueKey queueName "succeeded").
Definition failed (queueName : string) r : gset string :=
  Redis.set_of r (formatMessageQueueKey queueName "failed").
End View.
End View.

(** * The queue as a transition system

    Several dispatch loops, in one process or in many, share one store.
    Each Redis command, Lua script and MULTI/EXEC block is atomic on the
    server, so a run of the whole system is a sequence of such steps, taken
    in any order.  Between the steps a loop holds data in memory: the ids
    its blocking pops have returned and that it has not looked up yet, and
    the jobs it has handed to the worker and not yet finished.  Three
    history lists record what happened: no step reads them. *)
Module System.
Section System.
Context {T : Type}.

Record t := Mk {
  store : Redis.db (serialized T);
  fetched : list string;
  executing : list (Job.t T);
  admitted : list string;
  popped : list string;
  handed : list string
}.

Definition init : t := Mk Redis.empty [] [] [] [] [].

Inductive action :=
| Save (data : T) (jobId : string)
| Dequeue
| Load (i : nat)
| Finish (i : nat) (hasFailed : bool)
| Remove (jobId : string).

(** [step q a s] is the state after action [a], or [None] when the action
    cannot happen in [s] (the pop blocks, or there is no such fetched id or
    executing job).
    - [Save data jobId]: [new Job(config, data, jobId).save()]; the id is
      recorded as admitted when the script finds it absent from the hash;
    - [Dequeue]: a pending [getNextJob] returns;
    - [Load i]: the loop that holds the [i]-th fetched id goes on after
      [getNextJob]: it drops a falsy id, looks the job up with [fromId] and
      calls the worker on it if it is found;
    - [Finish i hasFailed]: the worker of the [i]-th executing job is over
      and [finishJob] runs;
    - [Remove jobId]: [removeJob(jobId)]. *)
Definition step (q : Queue.t) (a : action) (s : t) : option t :=
  match a with
  | Save data jobId =>
      let accepted :=
        bool_decide
          (Redis.hexists (store s) (Queue.createQueueKey q "jobs") jobId
           = 0%Z) in
      let '(_, r, _) :=
        Job.save (Job.constructor (Queue.owner q) data jobId) (store s) in
      Some (Mk r (fetched s) (executing s)
               (if accepted then jobId :: admitted s else admitted s)
               (popped s) (handed s))
  | Dequeue =>
      match Queue.getNextJob q (store s) with
      | None => None
      | Some (r, jobId) =>
          Some (Mk r (jobId :: fetched s) (executing s) (admitted s)
                   (jobId :: popped s) (handed s))
      end
  | Load i =>
      match fetched s !! i with
      | None => None
      | Some jobId =>
          if negb (truthy jobId) then
            Some (Mk (store s) (delete i (fetched s)) (executing s)
                     (admitted s) (popped s) (handed s))
          else
            match Job.fromId (Queue.owner q) jobId (store s) with
            | Some job =>
                Some (Mk (store s) (delete i (fetched s))
                         (job :: executing s)
                         (admitted s) (popped s) (jobId :: handed s))
            | None =>
                Some (Mk (store s) (delete i (fetched s)) (executing s)
                         (admitted s) (popped s) (handed s))
            end
      end
  | Finish i hasFailed =>
      match executing s !! i with
      | None => None
      | Some job =>
          let '(r, _) := Queue.finishJob q job hasFailed (store s) in
          Some (Mk r (fetched s) (delete i (executing s))
                   (admitted s) (popped s) (handed s))
      end
  | Remove jobId =>
      let '(r, _) := Queue.removeJob q jobId (store s) in
      Some (Mk r (fetched s) (executing s)
               (admitted s) (popped s) (handed s))
  end.

Fixpoint run (q : Queue.t) (acts : list action) (s : t) : option t :=
  match acts with
  | [] => Some s
  | a :: acts' =>
      match step q a s with
      | None => None
      | Some s' => run q acts' s'
      end
  end.
End System.
Global Arguments t : clear implicits.
Global Arguments action : clear implicits.
End System.

(** The retention flag that applies to an outcome of the worker. *)
Definition keeps (q : Queue.t) (hasFailed : bool) : bool :=
  if hasFailed then Queue.keepOnFailure (Queue.config q)
  else Queue.keepOnSuccess (Queue.config q).

(** The worker calls and the emitted events of a log, in order. *)
Definition calls {T} (log : list (Queue.effect T)) : list (string * T) :=
  omap (λ e, match e with
             | Queue.WorkerCalled jobId data => Some (jobId, data)
             | _ => None
             end) log.

Definition emits {T} (log : list (Queue.effect T))
  : list (JobStatuses * string) :=
  omap (λ e, match e with
             | Queue.Emitted event jobId => Some (event, jobId)
             | _ => None
             end) log.

(** The event that reports an outcome of the worker. *)
Definition event_of (o : Queue.outcome) : JobStatuses :=
  match o with Queue.Resolves => succeeded | Queue.Throws => failed end.

(** Whether an outcome is a failure: the flag [hasError] of [executeJob]. *)
Definition raised (o : Queue.outcome) : bool :=
  match o with Queue.Resolves => false | Queue.Throws => true end.




(** A queue named "test" with the default retention flags, and the store
    after one job, of id "A" and payload 7, was admitted and then
    processed by a worker that succeeds. *)
Definition demo : Queue.t :=
  Queue.constructor {| Queue.opt_queueName := "test";
                       Queue.opt_keepOnSuccess := None;
                       Queue.opt_keepOnFailure := None |}.

Definition demo_admitted : Redis.db (serialized nat) :=
  (Queue.add demo 7 "A" Redis.empty).1.

Definition demo_processed : Redis.db (serialized nat) :=
  (Queue.ticks 1 (Queue.process demo 1) (λ _, Queue.Resolves)
     demo_admitted).1.2.

(** Admitting a list of jobs, one [add] after the other; each job comes
    with the id [randomUUID()] gave it. *)
Definition add_all {T} (q : Queue.t) (jobs : list (string * T))
    (r : Redis.db (serialized T)) : Redis.db (serialized T) :=
  foldl (λ r job, (Queue.add q job.2 job.1 r).1) r jobs.

(** Two runs that admit the id "A" again after [removeJob] took it away
    while its worker was still running.  In the first, the earlier run of
    the worker and the later one end differently.  In the second, the
    earlier run ends after the re-admission, the terminal record is
    removed, and the id is admitted a third time. *)
Definition clash_sets : list (System.action nat) :=
  [System.Save 7 "A"; System.Dequeue; System.Load 0; System.Remove "A";
   System.Save 7 "A"; System.Dequeue; System.Load 0;
   System.Finish 0 true; System.Finish 0 false].

Definition clash_lists : list (System.action nat) :=
  [System.Save 7 "A"; System.Dequeue; System.Load 0; System.Remove "A";
   System.Save 7 "A"; System.Finish 0 false; System.Remove "A";
   System.Save 7 "A"; System.Dequeue].

(** A run in which every id is admitted once. *)
Definition tidy_run : list (System.action nat) :=
  [System.Save 1 "A"; System.Save 2 "B"; System.Save 3 "A"; System.Dequeue;
   System.Dequeue; System.Load 1; System.Load 0; System.Finish 0 true;
   System.Remove "A"; System.Finish 0 false].



(** The exclusion property of the storage structures: no id is on both
    lists, and no id is in both sets. *)
Definition mutual_exclusion {T} (n : string) (r : Redis.db (serialized T))
  : Prop :=
  (∀ x, ¬ (x ∈ View.waiting n r ∧ x ∈ View.active n r))
  ∧ (∀ x, ¬ (x ∈ View.succeeded n r ∧ x ∈ View.failed n r)).

(** What holds of every state of a run that admits no id twice: an id goes
    at most once through waiting, popped, fetched, handed to the worker,
    executing and terminal. *)
Record invariant {T} (n : string) (s : System.t T) : Prop := {
  inv_waiting : NoDup (View.waiting n (System.store s) ++ System.popped s);
  inv_fetched : NoDup (System.fetched s ++ System.handed s);
  inv_fetched_popped : ∀ x, x ∈ System.fetched s → x ∈ System.popped s;
  inv_handed_popped : ∀ x, x ∈ System.handed s → x ∈ System.popped s;
  inv_executing : NoDup (Job.id <$> System.executing s);
  inv_executing_handed :
    ∀ x, x ∈ Job.id <$> System.executing s → x ∈ System.handed s;
  inv_terminal :
    ∀ x, x ∈ View.succeeded n (System.store s)
         ∨ x ∈ View.failed n (System.store s) →
         x ∈ System.handed s ∧ x ∉ Job.id <$> System.executing s;
  inv_active :
    ∀ x, x ∈ View.active n (System.store s) → x ∈ System.popped s;
  inv_admitted :
    ∀ x, x ∈ View.waiting n (System.store s) ∨ x ∈ System.popped s →
         x ∈ System.admitted s;
  inv_disjoint :
    ∀ x, ¬ (x ∈ View.succeeded n (System.store s)
            ∧ x ∈ View.failed n (System.store s))
}.


(** ** Vocabulary of the further properties *)

(** A string without a colon. *)
Definition colon_free (s : string) : Prop :=
  ∀ x y, s ≠ x +:+ String ":"%char y.

(** The five structures of the queue named [n], read together. *)
Definition structures {T} (n : string) (r : Redis.db (serialized T)) :=
  (View.jobs n r, View.waiting n r, View.active n r,
   View.succeeded n r, View.failed n r).

(** How many times a log records [setImmediate(this.jobTick)]. *)
Definition scheduled {T} (log : list (Queue.effect T)) : nat :=
  List.length (omap (λ e, match e with
                          | Queue.TickScheduled => Some tt
                          | _ => None
                          end) log).

(** Counting in a state of the transition system: every dequeue consumed
    an admission, an id is looked up only after it was dequeued, a job is
    executed only after it was looked up, and only admitted, non-empty ids
    reach the worker. *)
Definition accounted {T} (n : string) (s : System.t T) : Prop :=
  (List.length (View.waiting n (System.store s))
   + List.length (System.popped s) ≤ List.length (System.admitted s))%nat
  ∧ (List.length (System.fetched s) + List.length (System.handed s)
     ≤ List.length (System.popped s))%nat
  ∧ (List.length (System.executing s) ≤ List.length (System.handed s))%nat
  ∧ (∀ x, x ∈ System.fetched s → x ∈ System.popped s)
  ∧ (∀ x, x ∈ System.handed s → truthy x = true ∧ x ∈ System.popped s)
  ∧ (∀ x, x ∈ System.popped s ∨ x ∈ View.waiting n (System.store s) →
          x ∈ System.admitted s).

(** Every waiting id has a record in the [jobs] hash. *)
Definition recorded {T} (n : string) (s : System.t T) : Prop :=
  ∀ x, x ∈ View.waiting n (System.store s) →
       is_Some (View.jobs n (System.store s) !! x).

(** The ids that the completion bookkeeping of the processed jobs puts in
    the [failed] set ([hasFailed = true]) or in the [succeeded] set
    ([hasFailed = false]). *)
Definition retained {T} (q : Queue.t) (worker : T → Queue.outcome)
    (hasFailed : bool) (processed : list (string * T)) : gset string :=
  list_to_set
    (omap (λ c, if bool_decide (raised (worker c.2) = hasFailed)
                   && keeps q hasFailed
                then Some c.1 else None) processed).

(** Two queues, "mail" and "billing", on one store: "mail" holds the jobs
    "A" and "B", "billing" the job "A"; and a run of the system on "mail". *)
Definition mail : Queue.t :=
  Queue.constructor {| Queue.opt_queueName := "mail";
                       Queue.opt_keepOnSuccess := Some false;
                       Queue.opt_keepOnFailure := None |}.

Definition billing : Queue.t :=
  Queue.constructor {| Queue.opt_queueName := "billing";
                       Queue.opt_keepOnSuccess := None;
                       Queue.opt_keepOnFailure := None |}.

Definition shared_store : Redis.db (serialized nat) :=
  (Queue.add billing 9 "A"
     (Queue.add mail 2 "B" (Queue.add mail 1 "A" Redis.empty).1).1).1.

Definition mail_run : list (System.action nat) :=
  [System.Save 1 "A"; System.Save 2 "B"; System.Dequeue; System.Load 0;
   System.Save 3 "C"; System.Finish 0 false; System.Remove "B"].

(** * Reading the store after a command *)
Section RedisFacts.
Context {V : Type}.
Implicit Types (r : Redis.db V) (key field elem member : string).

Lemma hash_of_store_hash r key h key' :
  Redis.hash_of (Redis.store_hash r key h) key'
  = if decide (key = key') then h else Redis.hash_of r key'.
Proof.
  unfold Redis.hash_of, Redis.store_hash; simpl.
  repeat case_decide; simplify_map_eq; done.
Qed.

Lemma list_of_store_list r key l key' :
  Redis.list_of (Redis.store_list r key l) key'
  = if decide (key = key') then l else Redis.list_of r key'.
Proof.
  unfold Redis.list_of, Redis.store_list; simpl.
  destruct l; case_decide; simplify_map_eq; done.
Qed.

Lemma set_of_store_set r key s key' :
  Redis.set_of (Redis.store_set r key s) key'
  = if decide (key = key') then s else Redis.set_of r key'.
Proof.
  unfold Redis.set_of, Redis.store_set; simpl.
  repeat case_decide; simplify_map_eq; done.
Qed.

Lemma hash_of_hset r key field v key' :
  Redis.hash_of (Redis.hset r key field v) key'
  = if decide (key = key') then <[field:=v]> (Redis.hash_of r key)
    else Redis.hash_of r key'.
Proof. apply hash_of_store_hash. Qed.

Lemma hash_of_hdel r key field key' :
  Redis.hash_of (Redis.hdel r key field) key'
  = if decide (key = key') then delete field (Redis.hash_of r key)
    else Redis.hash_of r key'.
Proof. apply hash_of_store_hash. Qed.

Lemma list_of_lpush r key elem key' :
  Redis.list_of (Redis.lpush r key elem) key'
  = if decide (key = key') then elem :: Redis.list_of r key
    else Redis.list_of r key'.
Proof. apply list_of_store_list. Qed.

Lemma list_of_lrem r key elem key' :
  Redis.list_of (Redis.lrem r key elem) key'
  = if decide (key = key') then filter (λ x, x ≠ elem) (Redis.list_of r key)
    else Redis.list_of r key'.
Proof. apply list_of_store_list. Qed.

Lemma set_of_sadd r key member key' :
  Redis.set_of (Redis.sadd r key member) key'
  = if decide (key = key') then {[member]} ∪ Redis.set_of r key
    else Redis.set_of r key'.
Proof. apply set_of_store_set. Qed.

Lemma set_of_srem r key member key' :
  Redis.set_of (Redis.srem r key member) key'
  = if decide (key = key') then Redis.set_of r key ∖ {[member]}
    else Redis.set_of r key'.
Proof. apply set_of_store_set. Qed.

Lemma brpoplpush_None r source destination :
  Redis.brpoplpush r source destination = None
  ↔ Redis.list_of r source = [].
Proof.
  unfold Redis.brpoplpush.
  destruct (last (Redis.list_of r source)) eqn:E.
  - split; [done|]. intros E'. by rewrite E' in E.
  - by apply last_None in E.
Qed.

Lemma brpoplpush_Some r source destination r' x :
  Redis.brpoplpush r source destination = Some (r', x) →
  ∃ l, Redis.list_of r source = l ++ [x]
       ∧ r' = Redis.lpush (Redis.store_list r source l) destination x.
Proof.
  unfold Redis.brpoplpush. intros H.
  destruct (last (Redis.list_of r source)) as [y|] eqn:E; [|done].
  apply last_Some in E as [l E]. simplify_eq.
  exists l. split; [done|]. by rewrite E, removelast_last.
Qed.

Lemma brpoplpush_snoc r source destination l x :
  Redis.list_of r source = l ++ [x] →
  Redis.brpoplpush r source destination
  = Some (Redis.lpush (Redis.store_list r source l) destination x, x).
Proof.
  intros E. unfold Redis.brpoplpush.
  by rewrite E, last_snoc, removelast_last.
Qed.
End RedisFacts.

(** A command on one kind of key leaves the other kinds alone. *)
Lemma hash_of_store_list {V} (r : Redis.db V) key l key' :
  Redis.hash_of (Redis.store_list r key l) key' = Redis.hash_of r key'.
Proof. done. Qed.
Lemma hash_of_store_set {V} (r : Redis.db V) key s key' :
  Redis.hash_of (Redis.store_set r key s) key' = Redis.hash_of r key'.
Proof. done. Qed.
Lemma list_of_store_hash {V} (r : Redis.db V) key h key' :
  Redis.list_of (Redis.store_hash r key h) key' = Redis.list_of r key'.
Proof. done. Qed.
Lemma list_of_store_set {V} (r : Redis.db V) key s key' :
  Redis.list_of (Redis.store_set r key s) key' = Redis.list_of r key'.
Proof. done. Qed.
Lemma set_of_store_hash {V} (r : Redis.db V) key h key' :
  Redis.set_of (Redis.store_hash r key h) key' = Redis.set_of r key'.
Proof. done. Qed.
Lemma set_of_store_list {V} (r : Redis.db V) key l key' :
  Redis.set_of (Redis.store_list r key l) key' = Redis.set_of r key'.
Proof. done. Qed.

Lemma formatMessageQueueKey_inj queueName :
  Inj (=) (=) (formatMessageQueueKey queueName).
Proof.
  intros k1 k2 H. unfold formatMessageQueueKey in H.
  by repeat apply (inj (String.app _)) in H.
Qed.

(** [views] reads each structure after a sequence of commands: it pushes
    the projections through the commands and settles the comparisons of
    keys. *)
Ltac key_cases :=
  repeat match goal with
  | |- context [decide (formatMessageQueueKey ?n ?a
                        = formatMessageQueueKey ?n ?b)] =>
      let Hk := fresh "Hk" in
      destruct (decide (formatMessageQueueKey n a
                        = formatMessageQueueKey n b)) as [Hk|Hk];
      [ first [ apply (inj (formatMessageQueueKey n)) in Hk; discriminate Hk
              | clear Hk ]
      | first [ done | clear Hk ] ]
  end.

Create Rewrite HintDb redis_views.
#[global] Hint Rewrite @hash_of_store_hash @hash_of_store_list
  @hash_of_store_set @list_of_store_hash @list_of_store_list
  @list_of_store_set @set_of_store_hash @set_of_store_list
  @set_of_store_set : redis_views.

Ltac views :=
  repeat match goal with x := _ |- _ => subst x end;
  unfold View.jobs, View.waiting, View.active, View.succeeded, View.failed,
    Queue.createQueueKey, Job.createQueueKey, Queue.owner,
    convertToJSONString; simpl;
  unfold Redis.exec, Redis.hset, Redis.hdel, Redis.lpush, Redis.lrem,
    Redis.sadd, Redis.srem; simpl;
  autorewrite with redis_views;
  key_cases.

(** * Admission *)
Section Admission.
Context {T : Type}.
Implicit Types (r : Redis.db (serialized T)) (job : Job.t T).

Lemma add_job_present {V} KEYS1 KEYS2 jobId (payload : V) (r : Redis.db V) :
  is_Some (Redis.hash_of r KEYS1 !! jobId) →
  Lua.add_job KEYS1 KEYS2 jobId payload r = (r, None).
Proof.
  intros [v Hv]. unfold Lua.add_job, Redis.hexists. rewrite Hv.
  by case_decide.
Qed.

Lemma add_job_absent {V} KEYS1 KEYS2 jobId (payload : V) (r : Redis.db V) :
  Redis.hash_of r KEYS1 !! jobId = None →
  Lua.add_job KEYS1 KEYS2 jobId payload r
  = (Redis.lpush (Redis.hset r KEYS1 jobId payload) KEYS2 jobId, Some jobId).
Proof.
  intros Hv. unfold Lua.add_job, Redis.hexists. rewrite Hv.
  by case_decide.
Qed.

Lemma save_present job r :
  is_Some (View.jobs (Job.queueName (Job.config job)) r !! Job.id job) →
  Job.save job r = (job, r, None).
Proof.
  intros H. unfold Job.save.
  by rewrite add_job_present.
Qed.

Lemma save_absent job r :
  View.jobs (Job.queueName (Job.config job)) r !! Job.id job = None →
  Job.save job r
  = (job,
     Redis.lpush
       (Redis.hset r (Job.createQueueKey (Job.config job) "jobs") (Job.id job)
          (convertToJSONString (Job.data job) (Job.status job)))
       (Job.createQueueKey (Job.config job) "waiting") (Job.id job),
     if truthy (Job.id job) then Some (Job.id job) else None).
Proof.
  intros H. unfold Job.save.
  rewrite add_job_absent by done.
  destruct job as [i s c d]; simpl. by destruct (truthy i).
Qed.

Lemma save_views job r :
  let n := Job.queueName (Job.config job) in
  View.jobs n r !! Job.id job = None →
  let r' := (Job.save job r).1.2 in
  View.jobs n r'
  = <[Job.id job := Serialized (Job.data job) (Job.status job)]>
      (View.jobs n r)
  ∧ View.waiting n r' = Job.id job :: View.waiting n r
  ∧ View.active n r' = View.active n r
  ∧ View.succeeded n r' = View.succeeded n r
  ∧ View.failed n r' = View.failed n r.
Proof.
  intros n E r'. subst r'. rewrite save_absent by done.
  repeat split; views; done.
Qed.

Lemma add_save (q : Queue.t) (payload : T) uuid r :
  Queue.add q payload uuid r
  = ((Job.save (Job.constructor (Queue.owner q) payload uuid) r).1.2,
     (Job.save (Job.constructor (Queue.owner q) payload uuid) r).2).
Proof.
  unfold Queue.add.
  by destruct (Job.save _ r) as [[j r'] res].
Qed.
End Admission.

(** * Dispatch, completion, removal, destruction *)
Section Operations.
Context {T : Type}.
Implicit Types (r : Redis.db (serialized T)) (job : Job.t T) (q : Queue.t).

Lemma getNextJob_blocks q r :
  Queue.getNextJob q r = None
  ↔ View.waiting (Queue.queueName (Queue.config q)) r = [].
Proof. apply brpoplpush_None. Qed.

Lemma getNextJob_views q r r' jobId :
  let n := Queue.queueName (Queue.config q) in
  Queue.getNextJob q r = Some (r', jobId) →
  View.waiting n r = View.waiting n r' ++ [jobId]
  ∧ View.active n r' = jobId :: View.active n r
  ∧ View.jobs n r' = View.jobs n r
  ∧ View.succeeded n r' = View.succeeded n r
  ∧ View.failed n r' = View.failed n r.
Proof.
  intros n H. apply brpoplpush_Some in H as (l & E & ->).
  change (View.waiting n r = l ++ [jobId]) in E.
  repeat split; views; done.
Qed.

Lemma getNextJob_snoc q r l jobId :
  View.waiting (Queue.queueName (Queue.config q)) r = l ++ [jobId] →
  ∃ r', Queue.getNextJob q r = Some (r', jobId).
Proof. intros E. eexists. by apply brpoplpush_snoc. Qed.

Lemma fromId_lookup (o : Job.OwnerQueue) jobId r :
  Job.fromId o jobId r
  = (λ p : serialized T, Job.Mk jobId (ser_status p) o (ser_data p))
      <$> View.jobs (Job.queueName o) r !! jobId.
Proof.
  unfold Job.fromId, Redis.hget, View.jobs, Job.createQueueKey.
  by destruct (Redis.hash_of r _ !! jobId).
Qed.

Lemma finishJob_result q job hasFailed r :
  (Queue.finishJob q job hasFailed r).2
  = (if hasFailed then failed else succeeded,
     Job.set_status job (if hasFailed then failed else succeeded)).
Proof.
  unfold Queue.finishJob.
  destruct hasFailed, (Queue.keepOnFailure (Queue.config q)),
    (Queue.keepOnSuccess (Queue.config q)); done.
Qed.

Lemma finishJob_views q job hasFailed r :
  let n := Queue.queueName (Queue.config q) in
  let r' := (Queue.finishJob q job hasFailed r).1 in
  View.waiting n r' = View.waiting n r
  ∧ View.active n r' = filter (λ x, x ≠ Job.id job) (View.active n r)
  ∧ View.jobs n r'
    = (if keeps q hasFailed
       then <[Job.id job := Serialized (Job.data job) (Job.status job)]>
              (View.jobs n r)
       else delete (Job.id job) (View.jobs n r))
  ∧ View.succeeded n r'
    = (if negb hasFailed && keeps q hasFailed
       then {[Job.id job]} ∪ View.succeeded n r else View.succeeded n r)
  ∧ View.failed n r'
    = (if hasFailed && keeps q hasFailed
       then {[Job.id job]} ∪ View.failed n r else View.failed n r).
Proof.
  intros n r'. subst r'. unfold Queue.finishJob, keeps.
  destruct hasFailed, (Queue.keepOnFailure (Queue.config q)),
    (Queue.keepOnSuccess (Queue.config q));
    simpl; repeat split; views; done.
Qed.

Lemma removeJob_views q jobId r :
  let n := Queue.queueName (Queue.config q) in
  let r' := (Queue.removeJob q jobId r).1 in
  View.jobs n r' = delete jobId (View.jobs n r)
  ∧ View.succeeded n r' = View.succeeded n r ∖ {[jobId]}
  ∧ View.failed n r' = View.failed n r ∖ {[jobId]}
  ∧ (if decide (jobId ∈ View.succeeded n r ∨ jobId ∈ View.failed n r)
     then View.waiting n r' = View.waiting n r
          ∧ View.active n r' = View.active n r
     else View.waiting n r' = filter (λ x, x ≠ jobId) (View.waiting n r)
          ∧ View.active n r' = filter (λ x, x ≠ jobId) (View.active n r)).
Proof.
  intros n r'. subst r'.
  unfold Queue.removeJob, Lua.remove_job, Redis.sismember.
  change (Redis.set_of r (Queue.createQueueKey q "succeeded"))
    with (View.succeeded n r).
  change (Redis.set_of r (Queue.createQueueKey q "failed"))
    with (View.failed n r).
  destruct (decide (jobId ∈ View.succeeded n r)) as [Hs|Hs],
    (decide (jobId ∈ View.failed n r)) as [Hf|Hf];
    (case_decide as Hz; [try lia|try lia]);
    (case_decide as Hm; [|try (exfalso; tauto)]; try (exfalso; tauto));
    simpl; repeat split; views; done.
Qed.

Lemma del_views {V} (r : Redis.db V) keys key :
  Redis.hash_of (Redis.del r keys).1 key
  = (if decide (key ∈ keys) then ∅ else Redis.hash_of r key)
  ∧ Redis.list_of (Redis.del r keys).1 key
    = (if decide (key ∈ keys) then [] else Redis.list_of r key)
  ∧ Redis.set_of (Redis.del r keys).1 key
    = (if decide (key ∈ keys) then ∅ else Redis.set_of r key).
Proof.
  revert r. induction keys as [|k keys IH]; intros r.
  - done.
  - cbn [Redis.del].
    destruct (Redis.del (Redis.del1 r k) keys) as [r' m] eqn:E. cbn [fst].
    specialize (IH (Redis.del1 r k)). rewrite E in IH; cbn [fst] in IH.
    destruct IH as (-> & -> & ->).
    unfold Redis.hash_of, Redis.list_of, Redis.set_of, Redis.del1;
      cbn [Redis.hashes Redis.lists Redis.sets].
    destruct (decide (key = k)) as [->|Hne].
    + rewrite !(decide_True (P := k ∈ k :: keys)) by (by left).
      destruct (decide (k ∈ keys)); simplify_map_eq; done.
    + destruct (decide (key ∈ keys)).
      * rewrite !(decide_True (P := key ∈ k :: keys)) by (by right). done.
      * rewrite !(decide_False (P := key ∈ k :: keys))
          by (by intros [?|?]%elem_of_cons).
        by simplify_map_eq.
Qed.

Lemma del1_comm {V} (r : Redis.db V) k k' :
  Redis.del1 (Redis.del1 r k) k' = Redis.del1 (Redis.del1 r k') k.
Proof. unfold Redis.del1; simpl. f_equal; apply delete_delete. Qed.

Lemma exists_key_del1 {V} (r : Redis.db V) key :
  Redis.exists_key (Redis.del1 r key) key = false.
Proof.
  unfold Redis.exists_key, Redis.del1; simpl.
  rewrite !lookup_delete_eq.
  rewrite !bool_decide_eq_false_2; [done|by inversion 1..].
Qed.

Lemma del_del1 {V} (r : Redis.db V) keys key :
  (Redis.del (Redis.del1 r key) keys).1 = Redis.del1 (Redis.del r keys).1 key.
Proof.
  revert r. induction keys as [|k keys IH]; intros r; [done|].
  cbn [Redis.del]. rewrite del1_comm.
  specialize (IH (Redis.del1 r k)).
  destruct (Redis.del (Redis.del1 (Redis.del1 r k) key) keys),
    (Redis.del (Redis.del1 r k) keys). done.
Qed.

Lemma del_exists_key {V} (r : Redis.db V) keys key :
  key ∈ keys → Redis.exists_key (Redis.del r keys).1 key = false.
Proof.
  revert r. induction keys as [|k keys IH]; intros r Hin;
    [by apply elem_of_nil in Hin|].
  cbn [Redis.del].
  destruct (Redis.del (Redis.del1 r k) keys) as [r' m] eqn:E; cbn [fst].
  destruct (decide (key ∈ keys)) as [Hk|Hk].
  - specialize (IH (Redis.del1 r k) Hk). by rewrite E in IH.
  - assert (key = k) as -> by (by apply elem_of_cons in Hin as [?|?]).
    change r' with (r', m).1. rewrite <- E, del_del1.
    apply exists_key_del1.
Qed.

Lemma destroy_views q r :
  let n := Queue.queueName (Queue.config q) in
  let r' := (Queue.destroy q r).1 in
  View.jobs n r' = ∅ ∧ View.waiting n r' = [] ∧ View.active n r' = []
  ∧ View.succeeded n r' = ∅ ∧ View.failed n r' = ∅.
Proof.
  intros n r'. subst r'. unfold Queue.destroy.
  unfold View.jobs, View.waiting, View.active, View.succeeded, View.failed.
  repeat split.
  - rewrite (proj1 (del_views _ _ _)).
    by rewrite decide_True by (cbn; set_solver).
  - rewrite (proj1 (proj2 (del_views _ _ _))).
    by rewrite decide_True by (cbn; set_solver).
  - rewrite (proj1 (proj2 (del_views _ _ _))).
    by rewrite decide_True by (cbn; set_solver).
  - rewrite (proj2 (proj2 (del_views _ _ _))).
    by rewrite decide_True by (cbn; set_solver).
  - rewrite (proj2 (proj2 (del_views _ _ _))).
    by rewrite decide_True by (cbn; set_solver).
Qed.
End Operations.

(** * The dispatch loop *)
Section Loop.
Context {T : Type}.
Implicit Types (r : Redis.db (serialized T)) (job : Job.t T) (q : Queue.t).

Lemma finishJob_config q1 q2 job hasFailed r :
  Queue.config q1 = Queue.config q2 →
  Queue.finishJob q1 job hasFailed r = Queue.finishJob q2 job hasFailed r.
Proof.
  intros H. unfold Queue.finishJob, Queue.createQueueKey. by rewrite H.
Qed.

Lemma executeJob_log q (worker : T → Queue.outcome) job r :
  Queue.executeJob q worker job r
  = (match worker (Job.data job) with
     | Queue.Resolves =>
         Queue.Mk (Queue.config q) (Queue.concurrency q)
                  (Queue.running q - 1) (Queue.queued q + 1)
     | Queue.Throws => q
     end,
     (Queue.finishJob q job (raised (worker (Job.data job))) r).1,
     [Queue.WorkerCalled (Job.id job) (Job.data job);
      Queue.BookkeepingDone (Job.id job);
      Queue.Emitted (event_of (worker (Job.data job))) (Job.id job)]).
Proof.
  unfold Queue.executeJob, raised, event_of.
  destruct (worker (Job.data job)); cbv beta iota zeta.
  - rewrite (finishJob_config _ q) by done.
    pose proof (finishJob_result q job false r) as H.
    destruct (Queue.finishJob q job false r) as [r' [st j']].
    simpl in H. by simplify_eq.
  - pose proof (finishJob_result q job true r) as H.
    destruct (Queue.finishJob q job true r) as [r' [st j']].
    simpl in H. by simplify_eq.
Qed.

Lemma jobTick_events q (worker : T → Queue.outcome) r q' r' log :
  Queue.jobTick q worker r = Some (q', r', log) →
  emits log = map (λ c, (event_of (worker c.2), c.1)) (calls log).
Proof.
  unfold Queue.jobTick. intros H.
  destruct (Queue.getNextJob q r) as [[r1 jobId]|]; [|done].
  revert H.
  set (q1 := Queue.Mk _ _ _ _).
  destruct (decide (Queue.running q1 + Queue.queued q1
                    < Queue.concurrency q1)%Z);
    destruct (negb (truthy jobId)); try (intros; by simplify_eq);
    (destruct (Job.fromId _ jobId r1) as [job|];
     [rewrite executeJob_log|]; intros; by simplify_eq).
Qed.

Lemma ticks_events q (worker : T → Queue.outcome) fuel r :
  emits (Queue.ticks fuel q worker r).2
  = map (λ c, (event_of (worker c.2), c.1))
        (calls (Queue.ticks fuel q worker r).2).
Proof.
  revert q r. induction fuel as [|fuel IH]; intros q r; [done|].
  simpl.
  destruct (Queue.jobTick q worker r) as [[[q1 r1] log1]|] eqn:E; [|done].
  specialize (IH q1 r1).
  destruct (Queue.ticks fuel q1 worker r1) as [[q2 r2] log2]. simpl in *.
  unfold emits, calls in *.
  rewrite !omap_app, map_app. f_equal; [|done].
  by eapply jobTick_events.
Qed.
End Loop.

(** * First in, first out *)
Section Fifo.
Context {T : Type}.
Implicit Types (r : Redis.db (serialized T)) (job : Job.t T) (q : Queue.t).
Implicit Types (jobs : list (string * T)).

Lemma add_views q (data : T) jobId r :
  let n := Queue.queueName (Queue.config q) in
  View.jobs n r !! jobId = None →
  let r' := (Queue.add q data jobId r).1 in
  View.jobs n r' = <[jobId := Serialized data created]> (View.jobs n r)
  ∧ View.waiting n r' = jobId :: View.waiting n r
  ∧ View.active n r' = View.active n r
  ∧ View.succeeded n r' = View.succeeded n r
  ∧ View.failed n r' = View.failed n r.
Proof.
  intros n E r'. subst r'. rewrite add_save. simpl.
  by apply (save_views (Job.constructor (Queue.owner q) data jobId)).
Qed.

Lemma add_present q (data : T) jobId r :
  is_Some (View.jobs (Queue.queueName (Queue.config q)) r !! jobId) →
  (Queue.add q data jobId r).1 = r.
Proof.
  intros H. rewrite add_save. simpl.
  by rewrite (save_present (Job.constructor (Queue.owner q) data jobId)).
Qed.

Lemma add_all_keeps q jobs r x v :
  View.jobs (Queue.queueName (Queue.config q)) r !! x = Some v →
  View.jobs (Queue.queueName (Queue.config q)) (add_all q jobs r) !! x
  = Some v.
Proof.
  revert r. induction jobs as [|[i d] jobs IH]; intros r H; [done|].
  simpl. apply IH.
  destruct (View.jobs (Queue.queueName (Queue.config q)) r !! i) eqn:E.
  - by rewrite add_present by (rewrite E; eauto).
  - destruct (add_views q d i r E) as (-> & _).
    rewrite lookup_insert_ne; [done|]. intros ->. congruence.
Qed.

Lemma add_all_views q jobs r :
  let n := Queue.queueName (Queue.config q) in
  NoDup jobs.*1 →
  (∀ x, x ∈ jobs.*1 → View.jobs n r !! x = None) →
  View.waiting n (add_all q jobs r) = rev jobs.*1 ++ View.waiting n r
  ∧ View.active n (add_all q jobs r) = View.active n r
  ∧ ∀ x d, (x, d) ∈ jobs →
      View.jobs n (add_all q jobs r) !! x = Some (Serialized d created).
Proof.
  intros n. revert r.
  induction jobs as [|[i d] jobs IH]; intros r Hnd Hfresh.
  - repeat split; [done..|]. intros x d' H. by apply elem_of_nil in H.
  - apply NoDup_cons in Hnd as [Hi Hnd]. simpl in *.
    assert (View.jobs n r !! i = None) as E by (apply Hfresh; by left).
    destruct (add_views q d i r E) as (Hj & Hw & Ha & _).
    fold n in Hj, Hw, Ha.
    destruct (IH (Queue.add q d i r).1 Hnd) as (IHw & IHa & IHj).
    { intros x Hx. rewrite Hj, lookup_insert_ne.
      - apply Hfresh. by right.
      - intros ->. done. }
    rewrite IHw, IHa, Hw, Ha. split; [by rewrite <- app_assoc|].
    split; [done|].
    intros x d' [H|H]%elem_of_cons.
    + simplify_eq. apply add_all_keeps. fold n. rewrite Hj.
      by rewrite lookup_insert_eq.
    + by apply IHj.
Qed.

Lemma jobTick_sequential q (worker : T → Queue.outcome) r l jobId d st :
  let n := Queue.queueName (Queue.config q) in
  Queue.concurrency q = 1%Z →
  (Queue.running q + Queue.queued q = 1)%Z →
  View.waiting n r = l ++ [jobId] →
  truthy jobId = true →
  View.jobs n r !! jobId = Some (Serialized d st) →
  ∃ q' r',
    Queue.jobTick q worker r
    = Some (q', r',
            [Queue.WorkerCalled jobId d; Queue.BookkeepingDone jobId;
             Queue.Emitted (event_of (worker d)) jobId])
    ∧ Queue.config q' = Queue.config q
    ∧ Queue.concurrency q' = 1%Z
    ∧ (Queue.running q' + Queue.queued q' = 1)%Z
    ∧ View.waiting n r' = l
    ∧ ∀ x, x ≠ jobId → View.jobs n r' !! x = View.jobs n r !! x.
Proof.
  intros n Hc Hrq Hw Ht Hj.
  destruct (getNextJob_snoc q r l jobId Hw) as [r1 Hnext].
  pose proof (getNextJob_views q r r1 jobId Hnext) as (Hw1 & _ & Hj1 & _).
  fold n in Hw1, Hj1. rewrite Hw in Hw1. apply app_inj_tail in Hw1 as [Hw1 _].
  unfold Queue.jobTick. rewrite Hnext. simpl.
  rewrite decide_False by lia. rewrite Ht. simpl.
  rewrite fromId_lookup. simpl. fold n. rewrite Hj1, Hj. simpl.
  rewrite executeJob_log. simpl.
  set (q1 := Queue.Mk (Queue.config q) (Queue.concurrency q)
                      (Queue.running q + 1) (Queue.queued q - 1)).
  set (job := Job.Mk _ _ _ _).
  destruct (finishJob_views q1 job (raised (worker d)) r1)
    as (Hw2 & _ & Hj2 & _).
  eexists _, _. split; [done|].
  split; [by destruct (worker d)|]. split; [by destruct (worker d)|].
  split; [destruct (worker d); simpl; lia|].
  simpl in Hw2, Hj2. fold n in Hw2, Hj2.
  split; [by rewrite Hw2|].
  intros x Hx. rewrite Hj2.
  destruct (keeps q1 _).
  - rewrite lookup_insert_ne by done. by rewrite Hj1.
  - rewrite lookup_delete_ne by done. by rewrite Hj1.
Qed.

Lemma ticks_blocked q (worker : T → Queue.outcome) r fuel :
  View.waiting (Queue.queueName (Queue.config q)) r = [] →
  Queue.ticks fuel q worker r = (q, r, []).
Proof.
  intros H. destruct fuel; [done|]. simpl.
  unfold Queue.jobTick. by rewrite (proj2 (getNextJob_blocks q r) H).
Qed.

Lemma ticks_fifo (worker : T → Queue.outcome) jobs :
  ∀ q r fuel,
  let n := Queue.queueName (Queue.config q) in
  Queue.concurrency q = 1%Z →
  (Queue.running q + Queue.queued q = 1)%Z →
  NoDup jobs.*1 →
  Forall (λ x, truthy x = true) jobs.*1 →
  View.waiting n r = rev jobs.*1 →
  (∀ x d, (x, d) ∈ jobs →
          ∃ st, View.jobs n r !! x = Some (Serialized d st)) →
  (List.length jobs ≤ fuel)%nat →
  calls (Queue.ticks fuel q worker r).2 = jobs
  ∧ (Queue.TickScheduled ∉ (Queue.ticks fuel q worker r).2)
  ∧ View.waiting n (Queue.ticks fuel q worker r).1.2 = [].
Proof.
  induction jobs as [|[i d] jobs IH]; intros q r fuel n Hc Hrq Hnd Ht Hw Hj Hf.
  - rewrite ticks_blocked by done. simpl. split; [done|].
    split; [apply not_elem_of_nil|done].
  - destruct fuel as [|fuel]; [simpl in Hf; lia|].
    simpl in Hw, Hnd, Ht.
    apply NoDup_cons in Hnd as [Hi Hnd].
    apply Forall_cons in Ht as [Hti Ht].
    destruct (Hj i d) as [st Hji]; [by left|].
    destruct (jobTick_sequential q worker r (rev jobs.*1) i d st
                Hc Hrq Hw Hti Hji)
      as (q1 & r1 & Htick & Hcfg & Hc1 & Hrq1 & Hw1 & Hj1).
    fold n in Hw1, Hj1.
    simpl. rewrite Htick.
    destruct (IH q1 r1 fuel Hc1 Hrq1 Hnd Ht) as (IHc & IHs & IHw).
    { by rewrite Hcfg. }
    { intros x d' Hx. rewrite Hcfg. fold n. rewrite Hj1.
      - apply Hj. by right.
      - intros ->. apply Hi. apply list_elem_of_fmap. by exists (i, d'). }
    { simpl in Hf. lia. }
    rewrite Hcfg in IHw. fold n in IHw.
    destruct (Queue.ticks fuel q1 worker r1) as [[q2 r2] log2].
    simpl in *. rewrite IHc. split; [done|]. split; [|done].
    intros H. repeat (apply elem_of_cons in H as [H|H]; [done|]). done.
Qed.

End Fifo.

(** * Runs of the transition system *)
Section Runs.
Context {T : Type}.
Implicit Types (r : Redis.db (serialized T)) (job : Job.t T) (q : Queue.t).
Implicit Types (s : System.t T) (a : System.action T).

Lemma views_empty n :
  View.jobs n (Redis.empty : Redis.db (serialized T)) = ∅
  ∧ View.waiting n (Redis.empty : Redis.db (serialized T)) = []
  ∧ View.active n (Redis.empty : Redis.db (serialized T)) = []
  ∧ View.succeeded n (Redis.empty : Redis.db (serialized T)) = ∅
  ∧ View.failed n (Redis.empty : Redis.db (serialized T)) = ∅.
Proof. done. Qed.

Lemma invariant_init n : invariant n (System.init : System.t T).
Proof.
  destruct (views_empty n) as (Hj & Hw & Ha & Hs & Hf).
  split; simpl; rewrite ?Hw, ?Ha, ?Hs, ?Hf; try apply NoDup_nil_2.
  - intros x H. by apply elem_of_nil in H.
  - intros x H. by apply elem_of_nil in H.
  - intros x H. by apply elem_of_nil in H.
  - intros x [H|H]; by apply elem_of_empty in H.
  - intros x H. by apply elem_of_nil in H.
  - intros x [H|H]; by apply elem_of_nil in H.
  - intros x [H _]. by apply elem_of_empty in H.
Qed.

Lemma hexists_0 r key field :
  Redis.hexists r key field = 0%Z ↔ Redis.hash_of r key !! field = None.
Proof. unfold Redis.hexists. by destruct (Redis.hash_of r key !! field). Qed.

Lemma step_save q (data : T) jobId s s' :
  let n := Queue.queueName (Queue.config q) in
  System.step q (System.Save data jobId) s = Some s' →
  System.fetched s' = System.fetched s
  ∧ System.executing s' = System.executing s
  ∧ System.popped s' = System.popped s
  ∧ System.handed s' = System.handed s
  ∧ View.active n (System.store s') = View.active n (System.store s)
  ∧ View.succeeded n (System.store s') = View.succeeded n (System.store s)
  ∧ View.failed n (System.store s') = View.failed n (System.store s)
  ∧ ((System.admitted s' = System.admitted s
      ∧ View.waiting n (System.store s') = View.waiting n (System.store s))
     ∨ (System.admitted s' = jobId :: System.admitted s
        ∧ View.waiting n (System.store s')
          = jobId :: View.waiting n (System.store s))).
Proof.
  intros n. unfold System.step.
  set (job := Job.constructor (Queue.owner q) data jobId).
  destruct (View.jobs n (System.store s) !! jobId) as [v|] eqn:E.
  - rewrite (save_present job) by (simpl; fold n; rewrite E; eauto).
    rewrite bool_decide_eq_false_2.
    2:{ rewrite hexists_0.
        change (View.jobs n (System.store s) !! jobId ≠ None).
        by rewrite E. }
    intros ?; simplify_eq. simpl. repeat split; try done. by left.
  - destruct (save_views job (System.store s) E) as (_ & Hw & Ha & Hs & Hf).
    destruct (Job.save job (System.store s)) as [[j r'] res].
    rewrite bool_decide_eq_true_2 by (by apply hexists_0).
    intros ?; simplify_eq. simpl in *. repeat split; try done. by right.
Qed.

Lemma step_dequeue q s s' :
  let n := Queue.queueName (Queue.config q) in
  System.step q System.Dequeue s = Some s' →
  ∃ x,
    View.waiting n (System.store s) = View.waiting n (System.store s') ++ [x]
    ∧ View.active n (System.store s') = x :: View.active n (System.store s)
    ∧ View.succeeded n (System.store s') = View.succeeded n (System.store s)
    ∧ View.failed n (System.store s') = View.failed n (System.store s)
    ∧ System.fetched s' = x :: System.fetched s
    ∧ System.popped s' = x :: System.popped s
    ∧ System.executing s' = System.executing s
    ∧ System.admitted s' = System.admitted s
    ∧ System.handed s' = System.handed s.
Proof.
  intros n. unfold System.step.
  destruct (Queue.getNextJob q (System.store s)) as [[r x]|] eqn:E; [|done].
  intros ?; simplify_eq. simpl.
  apply getNextJob_views in E as (Hw & Ha & _ & Hs & Hf).
  exists x. by repeat split.
Qed.

Lemma step_load q i s s' :
  System.step q (System.Load i) s = Some s' →
  ∃ x,
    System.fetched s !! i = Some x
    ∧ System.store s' = System.store s
    ∧ System.fetched s' = delete i (System.fetched s)
    ∧ System.popped s' = System.popped s
    ∧ System.admitted s' = System.admitted s
    ∧ ((System.executing s' = System.executing s
        ∧ System.handed s' = System.handed s)
       ∨ ∃ job, Job.id job = x
           ∧ System.executing s' = job :: System.executing s
           ∧ System.handed s' = x :: System.handed s).
Proof.
  unfold System.step.
  destruct (System.fetched s !! i) as [x|]; [|done].
  intros H. exists x. revert H.
  destruct (negb (truthy x)).
  { intros ?; simplify_eq. simpl. repeat split; try done. by left. }
  rewrite fromId_lookup.
  destruct (View.jobs _ _ !! x) as [p|]; simpl; intros ?; simplify_eq; simpl.
  - repeat split; try done. right. eexists. repeat split; done.
  - repeat split; try done. by left.
Qed.

Lemma step_finish q i hasFailed s s' :
  let n := Queue.queueName (Queue.config q) in
  System.step q (System.Finish i hasFailed) s = Some s' →
  ∃ job,
    System.executing s !! i = Some job
    ∧ System.executing s' = delete i (System.executing s)
    ∧ System.fetched s' = System.fetched s
    ∧ System.popped s' = System.popped s
    ∧ System.admitted s' = System.admitted s
    ∧ System.handed s' = System.handed s
    ∧ View.waiting n (System.store s') = View.waiting n (System.store s)
    ∧ View.active n (System.store s')
      = filter (λ x, x ≠ Job.id job) (View.active n (System.store s))
    ∧ View.succeeded n (System.store s')
      = (if negb hasFailed && keeps q hasFailed
         then {[Job.id job]} ∪ View.succeeded n (System.store s)
         else View.succeeded n (System.store s))
    ∧ View.failed n (System.store s')
      = (if hasFailed && keeps q hasFailed
         then {[Job.id job]} ∪ View.failed n (System.store s)
         else View.failed n (System.store s)).
Proof.
  intros n. unfold System.step.
  destruct (System.executing s !! i) as [job|]; [|done].
  intros H. exists job. revert H.
  destruct (finishJob_views q job hasFailed (System.store s))
    as (Hw & Ha & _ & Hs & Hf).
  destruct (Queue.finishJob q job hasFailed (System.store s)) as [r' res].
  intros ?; simplify_eq. simpl in *. by repeat split.
Qed.

Lemma step_remove q jobId s s' :
  let n := Queue.queueName (Queue.config q) in
  System.step q (System.Remove jobId) s = Some s' →
  System.executing s' = System.executing s
  ∧ System.fetched s' = System.fetched s
  ∧ System.popped s' = System.popped s
  ∧ System.admitted s' = System.admitted s
  ∧ System.handed s' = System.handed s
  ∧ View.waiting n (System.store s') `sublist_of`
      View.waiting n (System.store s)
  ∧ View.active n (System.store s') `sublist_of`
      View.active n (System.store s)
  ∧ View.succeeded n (System.store s') ⊆ View.succeeded n (System.store s)
  ∧ View.failed n (System.store s') ⊆ View.failed n (System.store s).
Proof.
  intros n. unfold System.step.
  destruct (removeJob_views q jobId (System.store s)) as (_ & Hs & Hf & Hl).
  destruct (Queue.removeJob q jobId (System.store s)) as [r' res].
  intros ?; simplify_eq. simpl in *. fold n in Hs, Hf, Hl.
  rewrite Hs, Hf. repeat split; try done.
  - case_decide; destruct Hl as [-> _]; [done|apply sublist_filter].
  - case_decide; destruct Hl as [_ ->]; [done|apply sublist_filter].
  - apply subseteq_difference_l. done.
  - apply subseteq_difference_l. done.
Qed.

Lemma step_admitted q a s s' :
  System.step q a s = Some s' →
  System.admitted s `suffix_of` System.admitted s'.
Proof.
  destruct a; intros H.
  - apply step_save in H as (_ & _ & _ & _ & _ & _ & _ & [[-> _]|[-> _]]);
      [done|by apply suffix_cons_r].
  - apply step_dequeue in H as (x & _ & _ & _ & _ & _ & _ & _ & -> & _).
    done.
  - apply step_load in H as (x & _ & _ & _ & _ & -> & _). done.
  - apply step_finish in H as (x & _ & _ & _ & _ & -> & _). done.
  - apply step_remove in H as (_ & _ & _ & -> & _). done.
Qed.

Lemma run_admitted q acts s s' :
  System.run q acts s = Some s' →
  System.admitted s `suffix_of` System.admitted s'.
Proof.
  revert s. induction acts as [|a acts IH]; intros s H; simpl in H.
  - by simplify_eq.
  - destruct (System.step q a s) as [s1|] eqn:E; [|done].
    etrans; [by eapply step_admitted|by apply IH].
Qed.

Lemma NoDup_suffix (l k : list string) :
  l `suffix_of` k → NoDup k → NoDup l.
Proof. intros [k' ->] H. by apply NoDup_app in H as (_ & _ & H). Qed.

Lemma elem_of_if_union (c : bool) (x y : string) (X : gset string) :
  y ∈ (if c then {[x]} ∪ X else X) → y ≠ x → y ∈ X.
Proof.
  destruct c; [|done].
  intros [H%elem_of_singleton|H]%elem_of_union; done.
Qed.

Lemma step_invariant q a s s' :
  let n := Queue.queueName (Queue.config q) in
  System.step q a s = Some s' →
  NoDup (System.admitted s') →
  invariant n s → invariant n s'.
Proof.
  intros n Hstep Hnd [Iw If Ifp Ihp Ie Ieh It Ia Iad Id].
  destruct a as [data jobId| |i|i hasFailed|jobId].
  - apply step_save in Hstep
      as (Hf & He & Hp & Hh & Ha & Hs & Hx & [[Had Hw]|[Had Hw]]);
      fold n in Ha, Hs, Hx, Hw;
      split; rewrite ?Hf, ?He, ?Hp, ?Hh, ?Ha, ?Hs, ?Hx, ?Hw, ?Had; try done.
    + rewrite Had in Hnd. apply NoDup_cons in Hnd as [Hfresh _].
      simpl. apply NoDup_cons. split; [|done].
      intros [H|H]%elem_of_app; apply Hfresh, Iad; auto.
    + intros x [[->|H]%elem_of_cons|H]; [by left|right; apply Iad; auto..].
  - apply step_dequeue in Hstep
      as (x & Hw & Ha & Hs & Hx & Hf & Hp & He & Had & Hh).
    fold n in Hw, Ha, Hs, Hx.
    rewrite Hw, <- app_assoc in Iw. simpl in Iw.
    assert (x ∉ System.popped s) as Hxp.
    { apply NoDup_app in Iw as (_ & _ & Iw).
      by apply NoDup_cons in Iw as [? _]. }
    split; rewrite ?Hf, ?He, ?Hp, ?Hh, ?Ha, ?Hs, ?Hx, ?Had; try done.
    + simpl. apply NoDup_cons. split; [|done].
      intros [H|H]%elem_of_app; apply Hxp; auto.
    + intros y [->|H]%elem_of_cons; [by left|right; auto].
    + intros y H. right. auto.
    + intros y [->|H]%elem_of_cons; [by left|right; auto].
    + intros y [H|[->|H]%elem_of_cons]; apply Iad.
      * left. rewrite Hw. apply elem_of_app. by left.
      * left. rewrite Hw. apply elem_of_app. right. by left.
      * by right.
  - apply step_load in Hstep
      as (x & Hi & Hst & Hf & Hp & Had & [[He Hh]|(job & Hid & He & Hh)]).
    + split; rewrite ?Hst, ?Hf, ?He, ?Hp, ?Hh, ?Had; try done.
      * apply (sublist_NoDup _ _ If).
        apply sublist_app; [apply sublist_delete|done].
      * intros y H. apply Ifp. eapply elem_of_sublist; [done|].
        apply sublist_delete.
    + assert (x ∉ System.handed s) as Hxh.
      { rewrite (delete_Permutation _ _ _ Hi) in If. simpl in If.
        apply NoDup_cons in If as [If _].
        intros H. apply If, elem_of_app. by right. }
      split; rewrite ?Hst, ?Hf, ?He, ?Hp, ?Hh, ?Had; try done.
      * rewrite (delete_Permutation _ _ _ Hi) in If. simpl in If.
        apply NoDup_cons in If as [If1 If2].
        apply NoDup_app in If2 as (N1 & N2 & N3).
        apply NoDup_app. split; [done|]. split.
        -- intros y Hy [->|H]%elem_of_cons.
           ++ apply If1, elem_of_app. by left.
           ++ by apply (N2 y).
        -- apply NoDup_cons. split; [|done].
           intros H. apply If1, elem_of_app. by right.
      * intros y H. apply Ifp. eapply elem_of_sublist; [done|].
        apply sublist_delete.
      * intros y [->|H]%elem_of_cons; [|auto].
        apply Ifp. by eapply list_elem_of_lookup_2.
      * simpl. rewrite Hid. apply NoDup_cons. split; [|done].
        intros H. by apply Hxh, Ieh.
      * simpl. rewrite Hid. intros y [->|H]%elem_of_cons; [by left|].
        right. auto.
      * intros y H. destruct (It y H) as [H1 H2]. split; [by right|].
        simpl. rewrite Hid. intros [->|H3]%elem_of_cons; done.
  - apply step_finish in Hstep
      as (job & Hi & He & Hf & Hp & Had & Hh & Hw & Ha & Hs & Hx).
    fold n in Hw, Ha, Hs, Hx.
    assert (Job.id <$> System.executing s
            ≡ₚ Job.id job :: (Job.id <$> delete i (System.executing s)))
      as Hperm.
    { rewrite list_fmap_delete. apply delete_Permutation.
      by rewrite list_lookup_fmap, Hi. }
    assert (Job.id job ∉ Job.id <$> delete i (System.executing s)) as Hgone.
    { rewrite Hperm in Ie. by apply NoDup_cons in Ie as [? _]. }
    assert (Job.id job ∈ Job.id <$> System.executing s) as Hin.
    { rewrite Hperm. by left. }
    assert (∀ y, y ∈ Job.id <$> delete i (System.executing s) →
                 y ∈ Job.id <$> System.executing s) as Hsub.
    { intros y H. rewrite Hperm. by right. }
    split; rewrite ?Hf, ?He, ?Hp, ?Hh, ?Hw, ?Had; try done.
    + rewrite Hperm in Ie. by apply NoDup_cons in Ie as [_ ?].
    + auto.
    + rewrite Hs, Hx. intros y H.
      destruct (decide (y = Job.id job)) as [->|Hne].
      * split; [by apply Ieh|done].
      * assert (y ∈ View.succeeded n (System.store s)
                ∨ y ∈ View.failed n (System.store s)) as H'.
        { destruct H as [H|H]; [left|right];
            by eapply elem_of_if_union. }
        destruct (It y H') as [H1 H2]. split; [done|]. auto.
    + rewrite Ha. intros y [_ H]%list_elem_of_filter. auto.
    + rewrite Hs, Hx. intros y [H1 H2].
      destruct (decide (y = Job.id job)) as [->|Hne].
      * assert ((Job.id job ∉ View.succeeded n (System.store s))
                ∧ (Job.id job ∉ View.failed n (System.store s)))
          as [N1 N2].
        { split; intros H; [destruct (It (Job.id job) (or_introl H))
                           |destruct (It (Job.id job) (or_intror H))];
            done. }
        destruct hasFailed; simpl in *.
        -- done.
        -- destruct (keeps q false); done.
      * apply (Id y). split; by eapply elem_of_if_union.
  - apply step_remove in Hstep
      as (He & Hf & Hp & Had & Hh & Hw & Ha & Hs & Hx).
    fold n in Hw, Ha, Hs, Hx.
    split; rewrite ?Hf, ?He, ?Hp, ?Hh, ?Had; try done.
    + apply (sublist_NoDup _ _ Iw). by apply sublist_app.
    + intros y H. apply It. destruct H; [left; by apply Hs|right; by apply Hx].
    + intros y H. apply Ia. by eapply elem_of_sublist.
    + intros y [H|H]; apply Iad; [left|by right].
      by eapply elem_of_sublist.
    + intros y [H1 H2]. apply (Id y). split; [by apply Hs|by apply Hx].
Qed.

Lemma run_invariant q acts s s' :
  System.run q acts s = Some s' →
  NoDup (System.admitted s') →
  invariant (Queue.queueName (Queue.config q)) s →
  invariant (Queue.queueName (Queue.config q)) s'.
Proof.
  revert s. induction acts as [|a acts IH]; intros s H Hnd Hinv; simpl in H.
  - by simplify_eq.
  - destruct (System.step q a s) as [s1|] eqn:E; [|done].
    apply (IH s1 H Hnd). eapply step_invariant; [done| |done].
    eapply NoDup_suffix; [|done]. by eapply run_admitted.
Qed.

Lemma invariant_exclusion n s :
  invariant n s → mutual_exclusion n (System.store s).
Proof.
  intros [Iw If Ifp Ihp Ie Ieh It Ia Iad Id]. split; [|done].
  intros x [H1 H2]. apply NoDup_app in Iw as (_ & Iw & _).
  apply (Iw x H1). auto.
Qed.

Lemma invariant_once n s :
  invariant n s → NoDup (System.popped s) ∧ NoDup (System.handed s).
Proof.
  intros [Iw If Ifp Ihp Ie Ieh It Ia Iad Id]. split.
  - by apply NoDup_app in Iw as (_ & _ & ?).
  - by apply NoDup_app in If as (_ & _ & ?).
Qed.
End Runs.

(** * The events of a run *)
Section Events.
Context {T : Type}.
Implicit Types (r : Redis.db (serialized T)) (job : Job.t T) (q : Queue.t).
Implicit Types (s : System.t T) (a : System.action T).









End Events.

(** * The properties of the specification *)
Section Claims.
Context {T : Type}.
Implicit Types (r : Redis.db (serialized T)) (job : Job.t T) (q : Queue.t).

(** C1 (amended).  Admission is an all-or-nothing de-duplication guard: for
    every store and every job, if the job's id is already a field of the
    [jobs] hash then [save()] returns null and leaves the store (and the
    job) as they were; if it is absent, [save()] writes the hash entry and
    pushes the id on the [waiting] list together, touches nothing else of
    the queue, and returns the id, provided the id is not the empty
    string.  [add()] builds a job and returns what [save()] returns. *)
Theorem save_all_or_nothing job r :
  let n := Job.queueName (Job.config job) in
  let '(job', r', res) := Job.save job r in
  match View.jobs n r !! Job.id job with
  | Some _ => res = None ∧ r' = r ∧ job' = job
  | None =>
      res = (if truthy (Job.id job) then Some (Job.id job) else None)
      ∧ View.jobs n r'
        = <[Job.id job := Serialized (Job.data job) (Job.status job)]>
            (View.jobs n r)
      ∧ View.waiting n r' = Job.id job :: View.waiting n r
      ∧ View.active n r' = View.active n r
      ∧ View.succeeded n r' = View.succeeded n r
      ∧ View.failed n r' = View.failed n r
      ∧ job' = job
  end
  ∧ ∀ q payload uuid,
      Job.constructor (Queue.owner q) payload uuid = job →
      Queue.add q payload uuid r = (r', res).
Proof.
  intros n. subst n.
  assert (∀ q payload uuid,
            Job.constructor (Queue.owner q) payload uuid = job →
            Queue.add q payload uuid r
            = ((Job.save job r).1.2, (Job.save job r).2)) as Hadd.
  { intros q payload uuid <-. apply add_save. }
  destruct (View.jobs (Job.queueName (Job.config job)) r !! Job.id job)
    as [v|] eqn:E.
  - rewrite save_present in * by (rewrite E; eauto). by split.
  - pose proof (save_views job r E) as H.
    rewrite save_absent in * by done. simpl in H.
    split; [|done]. by destruct H as (? & ? & ? & ? & ?).
Qed.

(** C3 (amended).  For every job id, [removeJob(id)] removes its [jobs]
    hash entry and its membership of [succeeded] and of [failed]; when the
    id was a member of [succeeded] or [failed] the [waiting] and [active]
    lists are left as they were, and otherwise the id is removed from
    [waiting] and from [active] too (so an id present only in [waiting] is
    purged from [waiting], [active] and [jobs]). *)
Theorem removeJob_purges q jobId r :
  let n := Queue.queueName (Queue.config q) in
  let r' := (Queue.removeJob q jobId r).1 in
  View.jobs n r' !! jobId = None
  ∧ (jobId ∉ View.succeeded n r')
  ∧ (jobId ∉ View.failed n r')
  ∧ (if decide (jobId ∈ View.succeeded n r ∨ jobId ∈ View.failed n r)
     then View.waiting n r' = View.waiting n r
          ∧ View.active n r' = View.active n r
     else (jobId ∉ View.waiting n r') ∧ (jobId ∉ View.active n r')).
Proof.
  intros n r'. subst n r'.
  destruct (removeJob_views q jobId r) as (Hj & Hs & Hf & Hl).
  rewrite Hj, Hs, Hf, lookup_delete_eq.
  split; [done|].
  split; [apply not_elem_of_difference; right; by apply elem_of_singleton|].
  split; [apply not_elem_of_difference; right; by apply elem_of_singleton|].
  case_decide; [done|].
  destruct Hl as [-> ->].
  split; intros [? _]%list_elem_of_filter; done.
Qed.

(** C4.  Jobs admitted one after the other into an empty queue, with
    distinct non-empty ids, and processed with [concurrency = 1] by a
    worker whose calls do not overlap, are passed to the worker in exactly
    the order of their admission: the loop calls the worker on the jobs in
    that order, emits their events in that order, never schedules a second
    chain of ticks, and leaves the [waiting] list empty. *)
Theorem fifo_dispatch q (jobs : list (string * T))
    (worker : T → Queue.outcome) fuel :
  NoDup jobs.*1 →
  Forall (λ x, truthy x = true) jobs.*1 →
  (List.length jobs ≤ fuel)%nat →
  let run := Queue.ticks fuel (Queue.process q 1) worker
               (add_all q jobs Redis.empty) in
  calls run.2 = jobs
  ∧ emits run.2 = map (λ c, (event_of (worker c.2), c.1)) jobs
  ∧ (Queue.TickScheduled ∉ run.2)
  ∧ View.waiting (Queue.queueName (Queue.config q)) run.1.2 = [].
Proof.
  intros Hnd Ht Hf run.
  destruct (add_all_views q jobs Redis.empty Hnd) as (Hw & _ & Hj); [done|].
  rewrite app_nil_r in Hw.
  destruct (ticks_fifo worker jobs (Queue.process q 1)
              (add_all q jobs Redis.empty) fuel) as (H1 & H2 & H3);
    try done.
  { intros x d Hx. eexists. by apply Hj. }
  fold run in H1, H2, H3. repeat split; try done.
  pose proof (ticks_events (Queue.process q 1) worker fuel
                (add_all q jobs Redis.empty)) as He.
  fold run in He. by rewrite He, H1.
Qed.

(** C5 (amended).  In every state reached from the empty queue by any
    sequence of admissions, dequeues, look-ups, completion bookkeepings
    and removals in which no job id is admitted more than once, a job id
    is on at most one of the [waiting] and [active] lists and in at most
    one of the [succeeded] and [failed] sets. *)
Theorem exclusion_when_admitted_once q (acts : list (System.action T)) s :
  System.run q acts System.init = Some s →
  NoDup (System.admitted s) →
  mutual_exclusion (Queue.queueName (Queue.config q)) (System.store s).
Proof.
  intros Hrun Hnd. apply invariant_exclusion.
  eapply run_invariant; [done..|apply invariant_init].
Qed.

(** C6.  Whatever the number of dequeue attempts and of loops that share
    the queue, and however their steps interleave with admissions,
    completions and removals: when the admitted jobs have pairwise
    distinct ids, no id is returned by two dequeue attempts and no id is
    passed to the worker twice; the ids passed to the worker were
    dequeued, and the dequeued ids were admitted.  A dequeue attempt is
    one step of the system, as [BRPOPLPUSH] is one command. *)
Theorem dispatched_at_most_once q (acts : list (System.action T)) s :
  System.run q acts System.init = Some s →
  NoDup (System.admitted s) →
  NoDup (System.popped s)
  ∧ NoDup (System.handed s)
  ∧ (∀ x, x ∈ System.handed s → x ∈ System.popped s)
  ∧ (∀ x, x ∈ System.popped s → x ∈ System.admitted s).
Proof.
  intros Hrun Hnd.
  assert (invariant (Queue.queueName (Queue.config q)) s) as Hinv
    by (eapply run_invariant; [done..|apply invariant_init]).
  destruct (invariant_once _ _ Hinv) as [H1 H2].
  repeat split; [done..| |].
  - apply Hinv.
  - intros x H. apply Hinv. by right.
Qed.


(** C8 (amended).  A job is constructed with status [created].  A
    successful [save()] persists it with that status and puts its id on
    the [waiting] list: the job keeps the status [created], and a look-up
    by id after admission yields a job whose status is [created].  A
    dequeue moves the id from the right end of [waiting] to [active] and
    changes no stored record.  Completion bookkeeping sets the status of
    the job it returns to [succeeded] or [failed], as the worker ended. *)
Theorem status_lifecycle q (data : T) jobId r :
  let n := Queue.queueName (Queue.config q) in
  let job := Job.constructor (Queue.owner q) data jobId in
  Job.status job = created
  ∧ (View.jobs n r !! jobId = None →
     let '(job', r', _) := Job.save job r in
     Job.status job' = created
     ∧ Job.fromId (Queue.owner q) jobId r' = Some job
     ∧ View.waiting n r' = jobId :: View.waiting n r)
  ∧ (∀ r' x, Queue.getNextJob q r = Some (r', x) →
     View.waiting n r = View.waiting n r' ++ [x]
     ∧ View.active n r' = x :: View.active n r
     ∧ ∀ i, Job.fromId (Queue.owner q) i r'
            = Job.fromId (Queue.owner q) i r)
  ∧ (∀ job0 hasFailed,
       let '(_, (status, job')) := Queue.finishJob q job0 hasFailed r in
       status = (if hasFailed then failed else succeeded)
       ∧ Job.status job' = status).
Proof.
  intros n job. subst n. split; [done|]. split; [|split].
  - intros E.
    pose proof (save_views job r E) as (Hj & Hw & _).
    rewrite save_absent in * by done. simpl in *.
    split; [done|]. split; [|done].
    rewrite fromId_lookup. simpl. rewrite Hj.
    by rewrite lookup_insert_eq.
  - intros r' x H. apply getNextJob_views in H as (Hw & Ha & Hj & _).
    split; [done|]. split; [done|].
    intros i. rewrite !fromId_lookup. simpl. by rewrite Hj.
  - intros job0 hasFailed.
    pose proof (finishJob_result q job0 hasFailed r) as H.
    destruct (Queue.finishJob q job0 hasFailed r) as [r' [st j']].
    simpl in H. simplify_eq. by destruct hasFailed.
Qed.

(** C9.  After [destroy()], whatever the store held before, the [jobs]
    hash, the [waiting] and [active] lists and the [succeeded] and [failed]
    sets of the queue are empty and none of the queue's keys exists; an
    [add()] that follows returns what it returns on an empty store and
    leaves the five structures as it leaves them on an empty store. *)
Theorem destroy_clears q r :
  let n := Queue.queueName (Queue.config q) in
  let r' := (Queue.destroy q r).1 in
  (View.jobs n r' = ∅ ∧ View.waiting n r' = [] ∧ View.active n r' = []
   ∧ View.succeeded n r' = ∅ ∧ View.failed n r' = ∅)
  ∧ Forall (λ key, Redis.exists_key r' (Queue.createQueueKey q key) = false)
      ["id"; "jobs"; "waiting"; "active"; "succeeded"; "failed"]
  ∧ ∀ (payload : T) uuid,
      let fresh := Queue.add q payload uuid Redis.empty in
      let again := Queue.add q payload uuid r' in
      again.2 = fresh.2
      ∧ View.jobs n again.1 = View.jobs n fresh.1
      ∧ View.waiting n again.1 = View.waiting n fresh.1
      ∧ View.active n again.1 = View.active n fresh.1
      ∧ View.succeeded n again.1 = View.succeeded n fresh.1
      ∧ View.failed n again.1 = View.failed n fresh.1.
Proof.
  intros n r'. subst n.
  pose proof (destroy_views q r) as Hd. fold r' in Hd.
  split; [done|]. destruct Hd as (Hj & Hw & Ha & Hs & Hf). split.
  - apply Forall_forall. intros key Hin. subst r'. unfold Queue.destroy.
    apply del_exists_key. by apply (list_elem_of_fmap_2 _ _ key).
  - intros payload uuid fresh again. subst fresh again.
    rewrite !add_save. cbn [fst snd].
    set (job := Job.constructor (Queue.owner q) payload uuid).
    assert (View.jobs (Queue.queueName (Queue.config q)) r' !! Job.id job
            = None) as E1
      by (by rewrite Hj, lookup_empty).
    assert (View.jobs (Queue.queueName (Queue.config q))
              (Redis.empty : Redis.db (serialized T)) !! Job.id job
            = None) as E2 by done.
    pose proof (save_views job r' E1) as (Hj1 & Hw1 & Ha1 & Hs1 & Hf1).
    pose proof (save_views job Redis.empty E2) as (Hj2 & Hw2 & Ha2 & Hs2 & Hf2).
    change (Job.queueName (Job.config job))
      with (Queue.queueName (Queue.config q)) in *.
    rewrite Hj1, Hw1, Ha1, Hs1, Hf1, Hj2, Hw2, Ha2, Hs2, Hf2.
    rewrite Hj, Hw, Ha, Hs, Hf.
    split; [|done].
    by rewrite !save_absent by done.
Qed.

(** C10.  The admission script returns nil or the very job id it was
    given; [save()] returns null or the id the job had before the call, and
    the job's [id] field is the same after the call as before. *)
Theorem admission_id_stable job r :
  (∀ KEYS1 KEYS2 jobId (payload : serialized T),
     (Lua.add_job KEYS1 KEYS2 jobId payload r).2 = None
     ∨ (Lua.add_job KEYS1 KEYS2 jobId payload r).2 = Some jobId)
  ∧ ((Job.save job r).2 = None ∨ (Job.save job r).2 = Some (Job.id job))
  ∧ Job.id (Job.save job r).1.1 = Job.id job.
Proof.
  split.
  - intros. unfold Lua.add_job. case_decide; simpl; auto.
  - destruct (View.jobs (Job.queueName (Job.config job)) r !! Job.id job)
      as [v|] eqn:E.
    + rewrite save_present by (rewrite E; eauto). simpl; auto.
    + rewrite save_absent by done. simpl.
      destruct (truthy (Job.id job)); auto.
Qed.
End Claims.

(** * The properties at concrete inputs *)

(** C1, as stated, fails for the empty id: the id is absent from the
    hash, [save()] admits the job (hash entry written, id pushed on
    [waiting]) and yet returns null instead of the id. *)
Lemma save_empty_id_returns_null :
  let job := Job.constructor {| Job.queueName := "test" |} 7 "" in
  let r : Redis.db (serialized nat) := Redis.empty in
  View.jobs "test" r !! Job.id job = None
  ∧ (Job.save job r).2 ≠ Some (Job.id job)
  ∧ (Job.save job r).2 = None
  ∧ View.jobs "test" (Job.save job r).1.2 !! "" = Some (Serialized 7 created)
  ∧ View.waiting "test" (Job.save job r).1.2 = [""].
Proof. vm_compute. repeat split; done. Qed.

(** C2, at a failing input.  The queue keeps successful jobs; the job "A"
    is admitted, dequeued, loaded with status [created] and run by a
    worker that succeeds; the [succeeded] event is emitted and "A" joins
    the [succeeded] set, but the record kept in the [jobs] hash has the
    status [created], not [succeeded]: [finishJob] serializes the job
    before it updates the status. *)
Lemma finishJob_stores_created_status :
  Queue.keepOnSuccess (Queue.config demo) = true
  ∧ Job.fromId (Queue.owner demo) "A" demo_admitted
    = Some (Job.Mk "A" created (Queue.owner demo) 7)
  ∧ calls (Queue.ticks 1 (Queue.process demo 1) (λ _, Queue.Resolves)
             demo_admitted).2 = [("A", 7)]
  ∧ emits (Queue.ticks 1 (Queue.process demo 1) (λ _, Queue.Resolves)
             demo_admitted).2 = [(succeeded, "A")]
  ∧ View.succeeded "test" demo_processed = {["A"]}
  ∧ View.jobs "test" demo_processed !! "A" = Some (Serialized 7 created).
Proof. vm_compute. repeat split; reflexivity. Qed.

(** C3, as stated, fails: "A" is a member of [succeeded] with an entry in
    [jobs], and [removeJob("A")] removes both. *)
Lemma removeJob_strips_succeeded :
  View.succeeded "test" demo_processed = {["A"]}
  ∧ View.jobs "test" demo_processed !! "A" = Some (Serialized 7 created)
  ∧ View.jobs "test" (Queue.removeJob demo "A" demo_processed).1 !! "A" = None
  ∧ View.succeeded "test" (Queue.removeJob demo "A" demo_processed).1 = ∅.
Proof. vm_compute. repeat split; reflexivity. Qed.

(** C4 at the jobs A, B, C. *)
Lemma fifo_dispatch_witness :
  calls (Queue.ticks 3 (Queue.process demo 1) (λ _ : nat, Queue.Resolves)
           (add_all demo [("A", 1); ("B", 2); ("C", 3)] Redis.empty)).2
  = [("A", 1); ("B", 2); ("C", 3)].
Proof.
  refine (proj1 (fifo_dispatch demo [("A", 1); ("B", 2); ("C", 3)]
                   (λ _, Queue.Resolves) 3 _ _ _)).
  - apply (bool_decide_unpack _). by vm_compute.
  - repeat constructor.
  - simpl. lia.
Defined.

(** C5, as stated, fails when an id is admitted again after a removal:
    one run ends with "A" in both [succeeded] and [failed], another with
    "A" on both [waiting] and [active]. *)
Lemma readmission_breaks_exclusion :
  (View.succeeded "test" ∘ System.store
     <$> System.run demo clash_sets System.init = Some {["A"]})
  ∧ (View.failed "test" ∘ System.store
       <$> System.run demo clash_sets System.init = Some {["A"]})
  ∧ (View.waiting "test" ∘ System.store
       <$> System.run demo clash_lists System.init = Some ["A"])
  ∧ (View.active "test" ∘ System.store
       <$> System.run demo clash_lists System.init = Some ["A"])
  ∧ match System.run demo clash_sets System.init with
    | Some s => ¬ mutual_exclusion "test" (System.store s)
    | None => False
    end.
Proof.
  do 4 (split; [vm_compute; reflexivity|]).
  destruct (System.run demo clash_sets System.init) as [s|] eqn:E;
    [|vm_compute in E; discriminate E].
  assert (View.succeeded "test" ∘ System.store
            <$> System.run demo clash_sets System.init = Some {["A"]}) as Hs
    by (vm_compute; reflexivity).
  assert (View.failed "test" ∘ System.store
            <$> System.run demo clash_sets System.init = Some {["A"]}) as Hf
    by (vm_compute; reflexivity).
  rewrite E in Hs, Hf. clear E.
  injection Hs as Hs. injection Hf as Hf.
  intros [_ H]. apply (H "A"). rewrite Hs, Hf.
  split; by apply elem_of_singleton.
Qed.

(** C5 (amended) at a run that admits "A" and "B" once each. *)
Lemma exclusion_when_admitted_once_witness :
  ∃ s, System.run demo tidy_run System.init = Some s
       ∧ System.admitted s = ["B"; "A"]
       ∧ mutual_exclusion "test" (System.store s).
Proof.
  destruct (System.run demo tidy_run System.init) as [s|] eqn:E;
    [|vm_compute in E; discriminate E].
  assert (System.admitted <$> System.run demo tidy_run System.init
          = Some ["B"; "A"]) as Ha by (vm_compute; reflexivity).
  rewrite E in Ha. injection Ha as Ha.
  exists s. split; [reflexivity|]. split; [exact Ha|].
  apply (exclusion_when_admitted_once demo tidy_run s E).
  rewrite Ha. apply (bool_decide_unpack _). by vm_compute.
Defined.

(** C6 at the same run. *)
Lemma dispatched_at_most_once_witness :
  ∃ s, System.run demo tidy_run System.init = Some s
       ∧ System.admitted s = ["B"; "A"]
       ∧ System.popped s = ["B"; "A"]
       ∧ NoDup (System.handed s).
Proof.
  destruct (System.run demo tidy_run System.init) as [s|] eqn:E;
    [|vm_compute in E; discriminate E].
  assert (System.admitted <$> System.run demo tidy_run System.init
          = Some ["B"; "A"]) as Ha by (vm_compute; reflexivity).
  assert (System.popped <$> System.run demo tidy_run System.init
          = Some ["B"; "A"]) as Hp by (vm_compute; reflexivity).
  rewrite E in Ha, Hp. injection Ha as Ha. injection Hp as Hp.
  exists s. split; [reflexivity|]. split; [exact Ha|]. split; [exact Hp|].
  apply (dispatched_at_most_once demo tidy_run s E).
  rewrite Ha. apply (bool_decide_unpack _). by vm_compute.
Defined.



(** C8, as stated, fails: after a successful admission and before any
    dispatch, the job looked up by id has the status [created], not
    [waiting]. *)
Lemma loaded_status_is_created :
  (Queue.add demo 7 "A" Redis.empty).2 = Some "A"
  ∧ View.waiting "test" demo_admitted = ["A"]
  ∧ View.active "test" demo_admitted = []
  ∧ Job.status <$> Job.fromId (Queue.owner demo) "A" demo_admitted
    = Some created
  ∧ Job.status <$> Job.fromId (Queue.owner demo) "A" demo_admitted
    ≠ Some waiting.
Proof. vm_compute. repeat split; done. Qed.

(** C8 (amended) at the job "A" saved into the empty store. *)
Lemma status_lifecycle_witness :
  Job.fromId (Queue.owner demo) "A" demo_admitted
  = Some (Job.constructor (Queue.owner demo) 7 "A")
  ∧ View.waiting "test" demo_admitted = ["A"].
Proof.
  pose proof (status_lifecycle demo 7 "A" Redis.empty) as (_ & H & _).
  specialize (H eq_refl).
  destruct (Job.save (Job.constructor (Queue.owner demo) 7 "A") Redis.empty)
    as [[j r'] res] eqn:E.
  assert (r' = demo_admitted) as ->.
  { unfold demo_admitted. rewrite add_save, E. done. }
  destruct H as (_ & H1 & H2). split; [exact H1|exact H2].
Defined.

(** * Further properties of the queue *)

(** ** Keys *)
Lemma app_nil_l_string (s : string) : "" +:+ s = s.
Proof. done. Qed.
Lemma app_cons_string a (s t : string) : String a s +:+ t = String a (s +:+ t).
Proof. done. Qed.

Lemma app_assoc_string (a b c : string) : (a +:+ b) +:+ c = a +:+ (b +:+ c).
Proof.
  induction a as [|x a IH]; [done|].
  by rewrite !app_cons_string, IH.
Qed.

Lemma last_colon_split a b s1 s2 :
  colon_free s1 → colon_free s2 →
  a +:+ String ":"%char s1 = b +:+ String ":"%char s2 → a = b ∧ s1 = s2.
Proof.
  intros H1 H2. revert b.
  induction a as [|x a IH]; intros [|y b] H.
  - rewrite !app_nil_l_string in H. by simplify_eq.
  - rewrite app_nil_l_string, app_cons_string in H. simplify_eq.
    by destruct (H1 b s2).
  - rewrite app_nil_l_string, app_cons_string in H. simplify_eq.
    by destruct (H2 a s1).
  - rewrite !app_cons_string in H. simplify_eq.
    destruct (IH b) as [-> ->]; done.
Qed.

Ltac colon_free :=
  let x := fresh "x" in let y := fresh "y" in let H := fresh "H" in
  intros x y H;
  repeat (destruct x as [|? x];
          [rewrite app_nil_l_string in H; discriminate H
          |rewrite app_cons_string in H; try discriminate H;
           injection H as ? H]).

Lemma queue_keys_colon_free :
  Forall colon_free ["id"; "jobs"; "waiting"; "active"; "succeeded"; "failed"].
Proof. repeat constructor; colon_free. Qed.

Lemma formatMessageQueueKey_split n1 n2 k1 k2 :
  colon_free k1 → colon_free k2 →
  formatMessageQueueKey n1 k1 = formatMessageQueueKey n2 k2 →
  n1 = n2 ∧ k1 = k2.
Proof.
  intros H1 H2 H. unfold formatMessageQueueKey in H.
  do 2 apply (inj (String.app _)) in H.
  by apply last_colon_split.
Qed.

Lemma length_app_string (a b : string) :
  String.length (a +:+ b) = (String.length a + String.length b)%nat.
Proof.
  induction a as [|x a IH]; [done|].
  rewrite app_cons_string. simpl. by rewrite IH.
Qed.

Lemma app_inj_r_string (a b c : string) : a +:+ c = b +:+ c → a = b.
Proof.
  revert b. induction a as [|x a IH]; intros [|y b] H; [done| | |].
  - exfalso. apply (f_equal String.length) in H.
    rewrite app_nil_l_string, app_cons_string in H. simpl in H.
    rewrite length_app_string in H. lia.
  - exfalso. apply (f_equal String.length) in H.
    rewrite app_nil_l_string, app_cons_string in H. simpl in H.
    rewrite length_app_string in H. lia.
  - rewrite !app_cons_string in H. simplify_eq. f_equal. by apply IH.
Qed.

(** X1.  [formatMessageQueueKey] is injective in the key for a fixed
    queue name and in the queue name for a fixed key; two keys without a
    colon formatted for two queues are equal only if both the queue names
    and the keys are; but it is not injective on pairs: a key that
    contains a colon gives the string of another queue name and key. *)
Theorem formatMessageQueueKey_injectivity :
  (∀ n k1 k2,
     formatMessageQueueKey n k1 = formatMessageQueueKey n k2 → k1 = k2)
  ∧ (∀ n1 n2 k,
       formatMessageQueueKey n1 k = formatMessageQueueKey n2 k → n1 = n2)
  ∧ (∀ n1 n2 k1 k2,
       colon_free k1 → colon_free k2 →
       formatMessageQueueKey n1 k1 = formatMessageQueueKey n2 k2 →
       n1 = n2 ∧ k1 = k2)
  ∧ (∀ n k1 k2,
       formatMessageQueueKey n (k1 +:+ ":" +:+ k2)
       = formatMessageQueueKey (n +:+ ":" +:+ k1) k2).
Proof.
  split; [|split; [|split]].
  - intros n k1 k2. apply formatMessageQueueKey_inj.
  - intros n1 n2 k H. unfold formatMessageQueueKey in H.
    do 2 apply (inj (String.app _)) in H.
    by apply app_inj_r_string in H.
  - apply formatMessageQueueKey_split.
  - intros n k1 k2. unfold formatMessageQueueKey.
    by rewrite !app_assoc_string.
Qed.

(** ** Two queues on one store *)

Ltac other_queue Hn :=
  unfold structures, View.jobs, View.waiting, View.active, View.succeeded,
    View.failed, Queue.createQueueKey, Job.createQueueKey, Queue.owner;
  simpl;
  unfold Redis.exec, Redis.hset, Redis.hdel, Redis.lpush, Redis.lrem,
    Redis.sadd, Redis.srem; simpl;
  autorewrite with redis_views;
  repeat match goal with
  | |- context [decide (formatMessageQueueKey ?n ?a
                        = formatMessageQueueKey ?m ?b)] =>
      rewrite (decide_False (P := formatMessageQueueKey n a
                                  = formatMessageQueueKey m b))
        by (intros [? _]%formatMessageQueueKey_split;
            [by apply Hn|colon_free|colon_free])
  end.

Section Isolation.
Context {T : Type}.
Implicit Types (r : Redis.db (serialized T)) (job : Job.t T) (q : Queue.t).

Lemma other_queue_key q n' key key' :
  Queue.queueName (Queue.config q) ≠ n' →
  key ∈ ["id"; "jobs"; "waiting"; "active"; "succeeded"; "failed"] →
  key' ∈ ["id"; "jobs"; "waiting"; "active"; "succeeded"; "failed"] →
  Queue.createQueueKey q key ≠ formatMessageQueueKey n' key'.
Proof.
  intros Hn Hk Hk' H.
  apply formatMessageQueueKey_split in H as [? _]; [done| |].
  - by apply (proj1 (Forall_forall _ _) queue_keys_colon_free).
  - by apply (proj1 (Forall_forall _ _) queue_keys_colon_free).
Qed.

(** X2.  Queues with different names share no key: [add], a dequeue,
    completion bookkeeping, [removeJob] and [destroy] on one queue leave
    the five structures of every other queue as they were. *)
Theorem queues_are_isolated q n' r :
  Queue.queueName (Queue.config q) ≠ n' →
  (∀ (data : T) jobId,
     structures n' (Queue.add q data jobId r).1 = structures n' r)
  ∧ (∀ r' x, Queue.getNextJob q r = Some (r', x) →
             structures n' r' = structures n' r)
  ∧ (∀ job hasFailed,
       structures n' (Queue.finishJob q job hasFailed r).1 = structures n' r)
  ∧ (∀ jobId, structures n' (Queue.removeJob q jobId r).1 = structures n' r)
  ∧ structures n' (Queue.destroy q r).1 = structures n' r.
Proof.
  intros Hn. split; [|split; [|split; [|split]]].
  - intros data jobId.
    destruct (View.jobs (Queue.queueName (Queue.config q)) r !! jobId)
      as [v|] eqn:E.
    + by rewrite add_present by (rewrite E; eauto).
    + rewrite add_save. cbn [fst snd].
      rewrite (save_absent (Job.constructor (Queue.owner q) data jobId))
        by done.
      other_queue Hn. done.
  - intros r' x H. apply brpoplpush_Some in H as (l & _ & ->).
    other_queue Hn. done.
  - intros job hasFailed. unfold Queue.finishJob.
    destruct hasFailed, (Queue.keepOnFailure (Queue.config q)),
      (Queue.keepOnSuccess (Queue.config q)); other_queue Hn; done.
  - intros jobId. unfold Queue.removeJob, Lua.remove_job.
    case_decide; other_queue Hn; done.
  - unfold Queue.destroy, structures, View.jobs, View.waiting, View.active,
      View.succeeded, View.failed.
    assert (∀ key',
      key' ∈ ["id"; "jobs"; "waiting"; "active"; "succeeded"; "failed"] →
      formatMessageQueueKey n' key'
      ∉ map (λ key, Queue.createQueueKey q key)
          ["id"; "jobs"; "waiting"; "active"; "succeeded"; "failed"])
      as Hout.
    { intros key' Hk' (key & Heq & Hk)%list_elem_of_fmap.
      by apply (other_queue_key q n' key key' Hn Hk Hk'). }
    rewrite !(proj1 (del_views _ _ _)), !(proj1 (proj2 (del_views _ _ _))),
      !(proj2 (proj2 (del_views _ _ _))).
    rewrite !decide_False; [done|apply Hout..];
      rewrite !elem_of_cons; auto 10.
Qed.
End Isolation.

(** ** Admission, removal and dequeue *)
Section Operations2.
Context {T : Type}.
Implicit Types (r : Redis.db (serialized T)) (job : Job.t T) (q : Queue.t).

Lemma save_recorded job r :
  is_Some (View.jobs (Job.queueName (Job.config job)) (Job.save job r).1.2
             !! Job.id job).
Proof.
  destruct (View.jobs (Job.queueName (Job.config job)) r !! Job.id job)
    as [v|] eqn:E.
  - rewrite save_present by (rewrite E; eauto). simpl. rewrite E. eauto.
  - destruct (save_views job r E) as (-> & _).
    rewrite lookup_insert_eq. eauto.
Qed.

Lemma fromId_owner q x r :
  Job.fromId (Queue.owner q) x r
  = (λ p : serialized T, Job.Mk x (ser_status p) (Queue.owner q) (ser_data p))
      <$> View.jobs (Queue.queueName (Queue.config q)) r !! x.
Proof. apply fromId_lookup. Qed.

(** X3.  Once [save()] has run for a job, whatever it returned, any
    later [save()] of a job with the same id in the same queue (any
    payload, any status) returns null and leaves the store as it is. *)
Theorem resubmission_rejected job (data' : T) status' r :
  let r1 := (Job.save job r).1.2 in
  let job' := Job.Mk (Job.id job) status' (Job.config job) data' in
  Job.save job' r1 = (job', r1, None)
  ∧ Job.fromId (Job.config job) (Job.id job) (Job.save job' r1).1.2
    = Job.fromId (Job.config job) (Job.id job) r1
  ∧ is_Some (Job.fromId (Job.config job) (Job.id job) r1).
Proof.
  intros r1 job'.
  assert (Job.save job' r1 = (job', r1, None)) as H.
  { apply save_present. subst job' r1.
    cbn [Job.config Job.id]. apply save_recorded. }
  rewrite H. split; [done|]. split; [done|].
  rewrite fromId_lookup. apply fmap_is_Some, save_recorded.
Qed.

(** X4.  [removeJob(id)] leaves every other job alone: its record, its
    membership of the two sets and of the two lists, and the order of the
    other ids on the lists are what they were. *)
Theorem removeJob_spares_others q jobId r x :
  x ≠ jobId →
  let n := Queue.queueName (Queue.config q) in
  let r' := (Queue.removeJob q jobId r).1 in
  Job.fromId (Queue.owner q) x r' = Job.fromId (Queue.owner q) x r
  ∧ (x ∈ View.succeeded n r' ↔ x ∈ View.succeeded n r)
  ∧ (x ∈ View.failed n r' ↔ x ∈ View.failed n r)
  ∧ filter (λ y, y ≠ jobId) (View.waiting n r')
    = filter (λ y, y ≠ jobId) (View.waiting n r)
  ∧ filter (λ y, y ≠ jobId) (View.active n r')
    = filter (λ y, y ≠ jobId) (View.active n r)
  ∧ (x ∈ View.waiting n r' ↔ x ∈ View.waiting n r)
  ∧ (x ∈ View.active n r' ↔ x ∈ View.active n r).
Proof.
  intros Hx n r'. subst n r'.
  destruct (removeJob_views q jobId r) as (Hj & Hs & Hf & Hl).
  rewrite !fromId_owner, Hj, Hs, Hf.
  rewrite lookup_delete_ne by done.
  split; [done|].
  split; [rewrite elem_of_difference, elem_of_singleton; tauto|].
  split; [rewrite elem_of_difference, elem_of_singleton; tauto|].
  case_decide; destruct Hl as [-> ->].
  - done.
  - rewrite !list_filter_filter.
    assert (∀ l : list string,
              filter (λ y, y ≠ jobId ∧ y ≠ jobId) l
              = filter (λ y, y ≠ jobId) l) as Hff.
    { intros l. apply list_filter_iff. tauto. }
    rewrite !Hff. split; [done|]. split; [done|].
    rewrite !list_elem_of_filter. tauto.
Qed.

(** X5.  After two calls of [removeJob(id)] in a row the id is in none
    of the five structures and cannot be looked up, whatever the store was
    (one call leaves the list entries of a terminal job in place). *)
Theorem removeJob_twice_purges q jobId r :
  let n := Queue.queueName (Queue.config q) in
  let r2 := (Queue.removeJob q jobId (Queue.removeJob q jobId r).1).1 in
  View.jobs n r2 !! jobId = None
  ∧ (jobId ∉ View.succeeded n r2)
  ∧ (jobId ∉ View.failed n r2)
  ∧ (jobId ∉ View.waiting n r2)
  ∧ (jobId ∉ View.active n r2)
  ∧ Job.fromId (Queue.owner q) jobId r2 = None.
Proof.
  intros n r2. subst n r2.
  set (r1 := (Queue.removeJob q jobId r).1).
  destruct (removeJob_views q jobId r) as (_ & Hs1 & Hf1 & _).
  fold r1 in Hs1, Hf1.
  destruct (removeJob_views q jobId r1) as (Hj & Hs & Hf & Hl).
  rewrite fromId_owner, Hj, Hs, Hf, lookup_delete_eq.
  rewrite decide_False in Hl.
  2:{ rewrite Hs1, Hf1, !elem_of_difference, !elem_of_singleton. tauto. }
  destruct Hl as [-> ->].
  split; [done|].
  split; [rewrite elem_of_difference, elem_of_singleton; tauto|].
  split; [rewrite elem_of_difference, elem_of_singleton; tauto|].
  split; [rewrite list_elem_of_filter; tauto|].
  split; [rewrite list_elem_of_filter; tauto|done].
Qed.

(** X6.  [getNextJob] blocks exactly when [waiting] is empty; when it
    returns, it returns the oldest waiting id (the right end of the list),
    [waiting] loses that entry, [active] gains it at its head, the
    concatenation of [waiting] and [active] is unchanged, and the job's
    record is untouched. *)
Theorem dequeue_moves_oldest q r :
  let n := Queue.queueName (Queue.config q) in
  match Queue.getNextJob q r with
  | None => View.waiting n r = []
  | Some (r', x) =>
      last (View.waiting n r) = Some x
      ∧ View.waiting n r' = removelast (View.waiting n r)
      ∧ View.active n r' = x :: View.active n r
      ∧ View.waiting n r' ++ View.active n r'
        = View.waiting n r ++ View.active n r
      ∧ Job.fromId (Queue.owner q) x r' = Job.fromId (Queue.owner q) x r
  end.
Proof.
  intros n. destruct (Queue.getNextJob q r) as [[r' x]|] eqn:E.
  - apply getNextJob_views in E as (Hw & Ha & Hj & _). fold n in Hw, Ha, Hj.
    rewrite Hw, Ha, last_snoc, removelast_last, !fromId_owner.
    fold n. rewrite Hj. repeat split; try done.
    by rewrite <- app_assoc.
  - by apply getNextJob_blocks.
Qed.
End Operations2.

(** ** One tick and the counters *)
Section Ticks.
Context {T : Type}.
Implicit Types (r : Redis.db (serialized T)) (job : Job.t T) (q : Queue.t).

Lemma scheduled_app (l k : list (Queue.effect T)) :
  scheduled (l ++ k) = (scheduled l + scheduled k)%nat.
Proof. unfold scheduled. by rewrite omap_app, length_app. Qed.

(** X8.  When the id that a tick pops is the empty string, or has no
    record in the [jobs] hash, the tick calls no worker and emits no event;
    the id has left [waiting] and stays on [active], nothing else in the
    store changes, and [running] has grown by one. *)
Theorem jobTick_skips_unusable q (worker : T → Queue.outcome) r l x :
  let n := Queue.queueName (Queue.config q) in
  View.waiting n r = l ++ [x] →
  truthy x = false ∨ View.jobs n r !! x = None →
  ∃ q' r' log,
    Queue.jobTick q worker r = Some (q', r', log)
    ∧ calls log = [] ∧ emits log = []
    ∧ View.waiting n r' = l
    ∧ View.active n r' = x :: View.active n r
    ∧ View.jobs n r' = View.jobs n r
    ∧ View.succeeded n r' = View.succeeded n r
    ∧ View.failed n r' = View.failed n r
    ∧ Queue.running q' = (Queue.running q + 1)%Z.
Proof.
  intros n Hw Hbad.
  destruct (getNextJob_snoc q r l x Hw) as [r1 Hnext].
  pose proof (getNextJob_views q r r1 x Hnext) as (Hw1 & Ha & Hj & Hs & Hf).
  fold n in Hw1, Ha, Hj, Hs, Hf.
  rewrite Hw in Hw1. apply app_inj_tail in Hw1 as [Hw1 _].
  unfold Queue.jobTick. rewrite Hnext. simpl.
  case_decide.
  all: destruct (truthy x) eqn:Ht; simpl;
    [rewrite fromId_lookup; simpl; fold n; rewrite Hj;
     destruct Hbad as [? | ->]; [done|]; simpl
    |];
    eexists _, r1, _; (split; [reflexivity|]); by repeat split.
Qed.

Lemma jobTick_counters q (worker : T → Queue.outcome) r q' r' log :
  Queue.jobTick q worker r = Some (q', r', log) →
  Queue.config q' = Queue.config q
  ∧ Queue.concurrency q' = Queue.concurrency q
  ∧ (Queue.running q' + Queue.queued q'
     = Queue.running q + Queue.queued q + Z.of_nat (scheduled log))%Z
  ∧ scheduled log
    = (if decide (Queue.running q + Queue.queued q < Queue.concurrency q)%Z
       then 1%nat else 0%nat)
  ∧ (Queue.running q ≤ Queue.running q' ≤ Queue.running q + 1)%Z.
Proof.
  unfold Queue.jobTick.
  destruct (Queue.getNextJob q r) as [[r1 x]|]; [|done].
  simpl.
  replace (Queue.running q + 1 + (Queue.queued q - 1))%Z
    with (Queue.running q + Queue.queued q)%Z by lia.
  destruct (decide (Queue.running q + Queue.queued q
                    < Queue.concurrency q)%Z) as [Hlt|Hlt];
    (destruct (negb (truthy x));
     [|destruct (Job.fromId _ x r1) as [job|];
       [rewrite executeJob_log;
        destruct (worker (Job.data job))|]]);
    intros ?; simplify_eq; rewrite ?scheduled_app; simpl;
    repeat split; try done; unfold scheduled; simpl; lia.
Qed.

(** X9.  Along the chain of ticks, for any worker and any store: the
    configuration and [concurrency] do not change; [running + queued]
    grows by one for each extra tick the chain schedules and never exceeds
    the larger of its initial value and [concurrency]; [running] never
    decreases.  After [process(worker, c)] with [c ≥ 1], at most [c - 1]
    extra ticks are scheduled. *)
Theorem ticks_counters q (worker : T → Queue.outcome) fuel r :
  let '(q', _, log) := Queue.ticks fuel q worker r in
  Queue.config q' = Queue.config q
  ∧ Queue.concurrency q' = Queue.concurrency q
  ∧ (Queue.running q' + Queue.queued q'
     = Queue.running q + Queue.queued q + Z.of_nat (scheduled log))%Z
  ∧ (Queue.running q' + Queue.queued q'
     ≤ Z.max (Queue.running q + Queue.queued q) (Queue.concurrency q))%Z
  ∧ (Queue.running q ≤ Queue.running q')%Z
  ∧ ((Queue.running q + Queue.queued q = 1)%Z →
     (1 ≤ Queue.concurrency q)%Z →
     (Z.of_nat (scheduled log) ≤ Queue.concurrency q - 1)%Z).
Proof.
  assert (∀ fuel q r,
    let '(q', _, log) := Queue.ticks fuel q worker r in
    Queue.config q' = Queue.config q
    ∧ Queue.concurrency q' = Queue.concurrency q
    ∧ (Queue.running q' + Queue.queued q'
       = Queue.running q + Queue.queued q + Z.of_nat (scheduled log))%Z
    ∧ (Queue.running q' + Queue.queued q'
       ≤ Z.max (Queue.running q + Queue.queued q) (Queue.concurrency q))%Z
    ∧ (Queue.running q ≤ Queue.running q')%Z) as Hmain; last first.
  { specialize (Hmain fuel q r).
    destruct (Queue.ticks fuel q worker r) as [[q' r'] log].
    destruct Hmain as (H1 & H2 & H3 & H4 & H5).
    repeat (split; [done|]). lia. }
  clear. intros fuel.
  induction fuel as [|fuel IH]; intros q r.
  - simpl. unfold scheduled. simpl. repeat split; lia.
  - simpl. destruct (Queue.jobTick q worker r) as [[[q1 r1] log1]|] eqn:E.
    + apply jobTick_counters in E as (Hc & Hn & Hs & Hd & Hr).
      specialize (IH q1 r1).
      destruct (Queue.ticks fuel q1 worker r1) as [[q2 r2] log2].
      destruct IH as (Hc2 & Hn2 & Hs2 & Hm2 & Hr2).
      rewrite scheduled_app.
      split; [congruence|]. split; [congruence|].
      case_decide; repeat split; lia.
    + unfold scheduled. simpl. repeat split; lia.
Qed.
End Ticks.

(** ** Completion and destruction *)
Section Completion.
Context {T : Type}.
Implicit Types (r : Redis.db (serialized T)) (job : Job.t T) (q : Queue.t).

(** X10.  After [finishJob] the job's id is not on [active] and
    [waiting] is unchanged.  When the retention flag of the outcome is
    set, a look-up by id finds the job's payload and the id is in the set
    of the outcome; when it is not set, the look-up finds nothing and the
    sets are unchanged.  The set of the other outcome is never touched,
    and no other job is affected. *)
Theorem finishJob_retention q job hasFailed r :
  let n := Queue.queueName (Queue.config q) in
  let r' := (Queue.finishJob q job hasFailed r).1 in
  (Job.id job ∉ View.active n r')
  ∧ View.waiting n r' = View.waiting n r
  ∧ (if keeps q hasFailed
     then Job.data <$> Job.fromId (Queue.owner q) (Job.id job) r'
          = Some (Job.data job)
          ∧ Job.id job ∈ (if hasFailed then View.failed n r'
                          else View.succeeded n r')
     else Job.fromId (Queue.owner q) (Job.id job) r' = None
          ∧ View.succeeded n r' = View.succeeded n r
          ∧ View.failed n r' = View.failed n r)
  ∧ (if hasFailed then View.succeeded n r' = View.succeeded n r
     else View.failed n r' = View.failed n r)
  ∧ ∀ x, x ≠ Job.id job →
      Job.fromId (Queue.owner q) x r' = Job.fromId (Queue.owner q) x r
      ∧ (x ∈ View.active n r' ↔ x ∈ View.active n r)
      ∧ (x ∈ View.succeeded n r' ↔ x ∈ View.succeeded n r)
      ∧ (x ∈ View.failed n r' ↔ x ∈ View.failed n r).
Proof.
  intros n r'. subst n r'.
  destruct (finishJob_views q job hasFailed r) as (Hw & Ha & Hj & Hs & Hf).
  rewrite Hw, Ha, Hs, Hf, !fromId_owner, Hj.
  split; [by intros [? _]%list_elem_of_filter|]. split; [done|].
  split; [|split].
  - destruct (keeps q hasFailed).
    + rewrite lookup_insert_eq. split; [done|].
      destruct hasFailed; simpl; apply elem_of_union_l;
        by apply elem_of_singleton.
    + rewrite lookup_delete_eq, !andb_false_r. done.
  - by destruct hasFailed.
  - intros x Hx. setoid_rewrite fromId_owner. rewrite Hj.
    split; [destruct (keeps q hasFailed);
            [by rewrite lookup_insert_ne|by rewrite lookup_delete_ne]|].
    split; [rewrite list_elem_of_filter; tauto|].
    clear Hw Ha Hj Hs Hf.
    split.
    + destruct (negb hasFailed && keeps q hasFailed);
        rewrite ?elem_of_union, ?elem_of_singleton; tauto.
    + destruct (hasFailed && keeps q hasFailed);
        rewrite ?elem_of_union, ?elem_of_singleton; tauto.
Qed.

Lemma exists_key_false (r : Redis.db (serialized T)) key :
  Redis.exists_key r key = false →
  Redis.hashes r !! key = None ∧ Redis.lists r !! key = None
  ∧ Redis.sets r !! key = None.
Proof.
  unfold Redis.exists_key. intros H.
  apply orb_false_elim in H as [H H3]. apply orb_false_elim in H as [H1 H2].
  apply bool_decide_eq_false in H1. apply bool_decide_eq_false in H2.
  apply bool_decide_eq_false in H3.
  apply eq_None_not_Some in H1. apply eq_None_not_Some in H2.
  apply eq_None_not_Some in H3. done.
Qed.

Lemma del1_absent (r : Redis.db (serialized T)) key :
  Redis.exists_key r key = false → Redis.del1 r key = r.
Proof.
  intros (H1 & H2 & H3)%exists_key_false. unfold Redis.del1.
  rewrite !delete_id by done. by destruct r.
Qed.

Lemma del_absent (r : Redis.db (serialized T)) keys :
  Forall (λ key, Redis.exists_key r key = false) keys →
  Redis.del r keys = (r, 0%Z).
Proof.
  induction 1 as [|key keys Hk _ IH]; [done|].
  cbn [Redis.del]. by rewrite Hk, del1_absent, IH.
Qed.

Lemma del_count (r : Redis.db (serialized T)) keys :
  (0 ≤ (Redis.del r keys).2 ≤ Z.of_nat (List.length keys))%Z.
Proof.
  revert r. induction keys as [|key keys IH]; intros r; [done|].
  cbn [Redis.del]. specialize (IH (Redis.del1 r key)).
  destruct (Redis.del (Redis.del1 r key) keys) as [r' m].
  cbn [snd] in *. rewrite length_cons.
  destruct (Redis.exists_key r key); lia.
Qed.

(** X11.  [destroy()] returns a count between 0 and 6; a second
    [destroy()] returns 0 and changes nothing; on a destroyed queue a
    dequeue blocks and no id can be looked up. *)
Theorem destroy_idempotent q r :
  let r1 := (Queue.destroy q r).1 in
  (0 ≤ (Queue.destroy q r).2 ≤ 6)%Z
  ∧ Queue.destroy q r1 = (r1, 0%Z)
  ∧ Queue.getNextJob q r1 = None
  ∧ ∀ x, Job.fromId (Queue.owner q) x r1 = None.
Proof.
  intros r1.
  destruct (destroy_views q r) as (Hj & Hw & _). fold r1 in Hj, Hw.
  split.
  { unfold Queue.destroy.
    pose proof (del_count r
      (map (λ key, Queue.createQueueKey q key)
         ["id"; "jobs"; "waiting"; "active"; "succeeded"; "failed"])) as H.
    by rewrite length_map in H. }
  split; [|split].
  - apply del_absent, Forall_forall. intros key Hkey.
    by apply del_exists_key.
  - by apply getNextJob_blocks.
  - intros x. by rewrite fromId_owner, Hj, lookup_empty.
Qed.
End Completion.

(** ** How the operations compose *)
Section Composition.
Context {T : Type}.
Implicit Types (r : Redis.db (serialized T)) (job : Job.t T) (q : Queue.t).

Lemma add_result q (data : T) jobId r :
  (Queue.add q data jobId r).2
  = match View.jobs (Queue.queueName (Queue.config q)) r !! jobId with
    | Some _ => None
    | None => if truthy jobId then Some jobId else None
    end.
Proof.
  rewrite add_save. cbn [snd].
  destruct (View.jobs _ r !! jobId) as [v|] eqn:E.
  - by rewrite save_present by (simpl; rewrite E; eauto).
  - by rewrite save_absent by done.
Qed.

Lemma cons_removelast_last (x : string) (l : list string) :
  x :: l = removelast (x :: l) ++ [default x (last l)].
Proof.
  destruct l as [|y l] using rev_ind; [done|].
  by rewrite last_snoc, app_comm_cons, removelast_last.
Qed.

(** X14.  After an [add()] that is accepted a dequeue does not block:
    it returns the oldest id that was waiting before, or the new id when
    nothing was waiting, and the new job moves no earlier job back.  After
    an [add()] that is rejected the dequeue is what it was. *)
Theorem add_then_dequeue q (data : T) jobId r :
  let n := Queue.queueName (Queue.config q) in
  match View.jobs n r !! jobId with
  | Some _ =>
      Queue.getNextJob q (Queue.add q data jobId r).1 = Queue.getNextJob q r
  | None =>
      ∃ r', Queue.getNextJob q (Queue.add q data jobId r).1
            = Some (r', default jobId (last (View.waiting n r)))
            ∧ View.waiting n r' = removelast (jobId :: View.waiting n r)
  end.
Proof.
  intros n. subst n.
  destruct (View.jobs (Queue.queueName (Queue.config q)) r !! jobId)
    as [v|] eqn:E.
  - by rewrite add_present by (rewrite E; eauto).
  - destruct (add_views q data jobId r E) as (_ & Hw & _).
    rewrite cons_removelast_last in Hw.
    destruct (getNextJob_snoc q _ _ _ Hw) as [r' Hr'].
    exists r'. split; [done|].
    apply getNextJob_views in Hr' as (Hw' & _).
    rewrite Hw in Hw'. by apply app_inj_tail in Hw' as [<- _].
Qed.

(** X15.  [finishJob] called again on the job it returned, whose status
    it has set in place: the lists and the sets stay as the first call
    left them; a retained record, written by the first call with the
    status the job had before, is rewritten with the terminal status; a
    third call changes none of the five structures. *)
Theorem finishJob_repeated q job hasFailed r :
  let n := Queue.queueName (Queue.config q) in
  let '(r1, (_, job1)) := Queue.finishJob q job hasFailed r in
  let '(r2, (_, job2)) := Queue.finishJob q job1 hasFailed r1 in
  let r3 := (Queue.finishJob q job2 hasFailed r2).1 in
  job1 = Job.set_status job (if hasFailed then failed else succeeded)
  ∧ job2 = job1
  ∧ View.waiting n r2 = View.waiting n r1
  ∧ View.active n r2 = View.active n r1
  ∧ View.succeeded n r2 = View.succeeded n r1
  ∧ View.failed n r2 = View.failed n r1
  ∧ View.jobs n r1
    = (if keeps q hasFailed
       then <[Job.id job := Serialized (Job.data job) (Job.status job)]>
              (View.jobs n r)
       else delete (Job.id job) (View.jobs n r))
  ∧ View.jobs n r2
    = (if keeps q hasFailed
       then <[Job.id job := Serialized (Job.data job)
                              (if hasFailed then failed else succeeded)]>
              (View.jobs n r)
       else delete (Job.id job) (View.jobs n r))
  ∧ structures n r3 = structures n r2.
Proof.
  intros n.
  pose proof (finishJob_result q job hasFailed r) as E1.
  pose proof (finishJob_views q job hasFailed r) as V1.
  destruct (Queue.finishJob q job hasFailed r) as [r1 [st1 job1]].
  simpl in E1, V1. injection E1 as _ ->.
  set (status := if hasFailed then failed else succeeded) in *.
  set (job1 := Job.set_status job status).
  pose proof (finishJob_result q job1 hasFailed r1) as E2.
  pose proof (finishJob_views q job1 hasFailed r1) as V2.
  destruct (Queue.finishJob q job1 hasFailed r1) as [r2 [st2 job2]].
  simpl in E2, V2. injection E2 as _ ->.
  pose proof (finishJob_views q job1 hasFailed r2) as V3.
  fold n in V1, V2, V3. fold status.
  change (Job.set_status job1 status) with job1.
  change (Job.id job1) with (Job.id job) in *.
  change (Job.data job1) with (Job.data job) in *.
  change (Job.status job1) with status in *.
  cbv zeta in *.
  destruct V1 as (W1 & A1 & J1 & S1 & F1).
  destruct V2 as (W2 & A2 & J2 & S2 & F2).
  destruct V3 as (W3 & A3 & J3 & S3 & F3).
  assert (View.active n r2 = View.active n r1) as A2'.
  { rewrite A2, A1, list_filter_filter. apply list_filter_iff. tauto. }
  assert (View.succeeded n r2 = View.succeeded n r1) as S2'.
  { rewrite S2, S1. destruct (negb hasFailed && keeps q hasFailed); [|done].
    by rewrite (assoc_L (∪)), union_idemp_L. }
  assert (View.failed n r2 = View.failed n r1) as F2'.
  { rewrite F2, F1. destruct (hasFailed && keeps q hasFailed); [|done].
    by rewrite (assoc_L (∪)), union_idemp_L. }
  assert (View.jobs n r2
          = (if keeps q hasFailed
             then <[Job.id job := Serialized (Job.data job) status]>
                    (View.jobs n r)
             else delete (Job.id job) (View.jobs n r))) as J2'.
  { rewrite J2, J1. destruct (keeps q hasFailed).
    - by rewrite insert_insert_eq.
    - by rewrite delete_delete_eq. }
  do 8 (split; [done|]).
  unfold structures. rewrite W3, A3, J3, S3, F3.
  f_equal; [f_equal; [f_equal; [f_equal|]|]|].
  - rewrite J2'. destruct (keeps q hasFailed).
    + by rewrite insert_insert_eq.
    + by rewrite delete_delete_eq.
  - rewrite A2, list_filter_filter. apply list_filter_iff. tauto.
  - rewrite S2. destruct (negb hasFailed && keeps q hasFailed); [|done].
    by rewrite (assoc_L (∪)), union_idemp_L.
  - rewrite F2. destruct (hasFailed && keeps q hasFailed); [|done].
    by rewrite (assoc_L (∪)), union_idemp_L.
Qed.

(** X16.  An id can be admitted again exactly when its record is gone:
    [add()] with the id succeeds after [removeJob(id)], after [destroy()],
    and after a completion that does not retain the job; it is rejected
    after a completion that retains it.  (Success is the id, or null for
    the empty id.) *)
Theorem id_reuse q (data : T) job hasFailed jobId r :
  (Queue.add q data jobId (Queue.removeJob q jobId r).1).2
  = (if truthy jobId then Some jobId else None)
  ∧ (Queue.add q data (Job.id job) (Queue.finishJob q job hasFailed r).1).2
    = (if keeps q hasFailed then None
       else if truthy (Job.id job) then Some (Job.id job) else None)
  ∧ (Queue.add q data jobId (Queue.destroy q r).1).2
    = (if truthy jobId then Some jobId else None).
Proof.
  rewrite !add_result.
  destruct (removeJob_views q jobId r) as (-> & _).
  destruct (finishJob_views q job hasFailed r) as (_ & _ & -> & _).
  destruct (destroy_views q r) as (-> & _).
  rewrite lookup_delete_eq, lookup_empty. split; [done|]. split; [|done].
  destruct (keeps q hasFailed).
  - by rewrite lookup_insert_eq.
  - by rewrite lookup_delete_eq.
Qed.
End Composition.

(** ** Counting in runs of the system *)
Section Accounting.
Context {T : Type}.
Implicit Types (r : Redis.db (serialized T)) (job : Job.t T) (q : Queue.t).
Implicit Types (s : System.t T) (a : System.action T).

Lemma load_truthy q i s s' x :
  System.step q (System.Load i) s = Some s' →
  System.fetched s !! i = Some x →
  System.handed s' = x :: System.handed s → truthy x = true.
Proof.
  unfold System.step. intros H Hi Hh. rewrite Hi in H.
  destruct (truthy x); [done|]. simpl in H. simplify_eq. simpl in Hh.
  apply (f_equal List.length) in Hh. simpl in Hh. lia.
Qed.

Lemma step_accounted q a s s' :
  let n := Queue.queueName (Queue.config q) in
  System.step q a s = Some s' → accounted n s → accounted n s'.
Proof.
  intros n Hstep (A1 & A2 & A3 & A4 & A5 & A6).
  destruct a as [data jobId| |i|i hasFailed|jobId].
  - apply step_save in Hstep
      as (Hf & He & Hp & Hh & _ & _ & _ & [[Had Hw]|[Had Hw]]);
      fold n in Hw; unfold accounted;
      rewrite Hf, He, Hp, Hh, Hw, Had.
    + done.
    + simpl. split; [lia|]. do 4 (split; [done|]).
      intros x [H|[->|H]%elem_of_cons]; [right; apply A6; auto|by left|].
      right; apply A6; auto.
  - apply step_dequeue in Hstep
      as (x & Hw & _ & _ & _ & Hf & Hp & He & Had & Hh).
    fold n in Hw. rewrite Hw, length_app in A1. simpl in A1.
    unfold accounted. rewrite Hf, He, Hp, Hh, Had. simpl.
    split; [lia|]. split; [lia|]. split; [done|]. split; [|split].
    + intros y [->|Hy]%elem_of_cons; [by left|right; auto].
    + intros y Hy. destruct (A5 y Hy). split; [done|by right].
    + intros y [[->|Hy]%elem_of_cons|Hy]; apply A6.
      * right. rewrite Hw. apply elem_of_app. right. by left.
      * by left.
      * right. rewrite Hw. apply elem_of_app. by left.
  - pose proof Hstep as Hstep'.
    apply step_load in Hstep
      as (x & Hi & Hst & Hf & Hp & Had & [[He Hh]|(job & Hid & He & Hh)]);
      pose proof (lookup_lt_Some _ _ _ Hi) as Hlt;
      assert (∀ y, y ∈ delete i (System.fetched s) → y ∈ System.popped s)
        as Hsub
        by (intros y Hy; apply A4;
            by apply (elem_of_sublist _ _ _ Hy), sublist_delete);
      unfold accounted;
      rewrite Hst, Hf, He, Hp, Hh, Had, length_delete by eauto;
      simpl.
    + split; [done|]. split; [lia|]. split; [done|]. split; [done|].
      by split.
    + split; [done|]. split; [lia|]. split; [lia|]. split; [done|].
      split; [|done].
      intros y [->|Hy]%elem_of_cons; [|by apply A5]. split.
      * by eapply load_truthy.
      * apply A4. by eapply list_elem_of_lookup_2.
  - apply step_finish in Hstep
      as (job & Hi & He & Hf & Hp & Had & Hh & Hw & _).
    fold n in Hw. pose proof (lookup_lt_Some _ _ _ Hi) as Hlt.
    unfold accounted.
    rewrite Hf, He, Hp, Hh, Had, Hw, length_delete by eauto.
    simpl. split; [done|]. split; [done|]. split; [lia|]. done.
  - apply step_remove in Hstep as (He & Hf & Hp & Had & Hh & Hw & _).
    fold n in Hw. pose proof (sublist_length _ _ Hw) as Hlen.
    unfold accounted. rewrite Hf, He, Hp, Hh, Had.
    split; [lia|]. do 4 (split; [done|]).
    intros x [H|H]; apply A6; [by left|right].
    by apply (elem_of_sublist _ _ _ H).
Qed.

Lemma run_accounted q acts s s' :
  System.run q acts s = Some s' →
  accounted (Queue.queueName (Queue.config q)) s →
  accounted (Queue.queueName (Queue.config q)) s'.
Proof.
  revert s. induction acts as [|a acts IH]; intros s H Hacc; simpl in H.
  - by simplify_eq.
  - destruct (System.step q a s) as [s1|] eqn:E; [|done].
    apply (IH s1 H). by eapply step_accounted.
Qed.

(** X12.  In every run from the empty queue, also when ids are removed
    and admitted again: each dequeue consumed an admission (the waiting
    ids and the dequeued ids together are no more than the admissions),
    each look-up follows a dequeue, each execution follows a look-up, the
    worker only gets non-empty ids, and every id that waits or was
    dequeued was admitted. *)
Theorem run_accounting q (acts : list (System.action T)) s :
  System.run q acts System.init = Some s →
  let n := Queue.queueName (Queue.config q) in
  (List.length (View.waiting n (System.store s))
   + List.length (System.popped s) ≤ List.length (System.admitted s))%nat
  ∧ (List.length (System.fetched s) + List.length (System.handed s)
     ≤ List.length (System.popped s))%nat
  ∧ (List.length (System.executing s) ≤ List.length (System.handed s))%nat
  ∧ (∀ x, x ∈ System.fetched s → x ∈ System.popped s)
  ∧ (∀ x, x ∈ System.handed s → truthy x = true ∧ x ∈ System.popped s)
  ∧ (∀ x, x ∈ System.popped s ∨ x ∈ View.waiting n (System.store s) →
          x ∈ System.admitted s).
Proof.
  intros H n. subst n.
  change (accounted (Queue.queueName (Queue.config q)) s).
  eapply run_accounted; [done|].
  destruct (views_empty (T:=T) (Queue.queueName (Queue.config q)))
    as (_ & Hw & _).
  unfold accounted. simpl. rewrite Hw. simpl.
  split; [lia|]. split; [lia|]. split; [lia|].
  split; [intros x Hx; by apply elem_of_nil in Hx|].
  split; [intros x Hx; by apply elem_of_nil in Hx|].
  intros x [Hx|Hx]; by apply elem_of_nil in Hx.
Qed.

Lemma step_recorded q a s s' :
  let n := Queue.queueName (Queue.config q) in
  System.step q a s = Some s' →
  invariant n s → recorded n s → recorded n s'.
Proof.
  intros n Hstep [Iw If Ifp Ihp Ie Ieh It Ia Iad Id] Hrec.
  assert (∀ x, x ∈ View.waiting n (System.store s) → x ∉ System.popped s)
    as Hwp by (by apply NoDup_app in Iw as (_ & ? & _)).
  unfold recorded, System.step in *.
  destruct a as [data jobId| |i|i hasFailed|jobId].
  - set (job := Job.constructor (Queue.owner q) data jobId) in *.
    destruct (View.jobs n (System.store s) !! jobId) as [v|] eqn:E.
    + rewrite (save_present job) in Hstep by (simpl; fold n; rewrite E; eauto).
      by simplify_eq.
    + destruct (save_views job (System.store s) E) as (Hj & Hw & _).
      destruct (Job.save job (System.store s)) as [[j r'] res].
      simplify_eq. simpl in *. fold n in Hj, Hw. rewrite Hj, Hw.
      intros x [->|Hx]%elem_of_cons.
      * rewrite lookup_insert_eq. eauto.
      * rewrite lookup_insert_is_Some. right. split; [|auto].
        intros ->. specialize (Hrec _ Hx). rewrite E in Hrec.
        by destruct Hrec.
  - destruct (Queue.getNextJob q (System.store s)) as [[r x]|] eqn:E; [|done].
    simplify_eq. simpl.
    apply getNextJob_views in E as (Hw & _ & Hj & _). fold n in Hw, Hj.
    rewrite Hj. intros y Hy. apply Hrec. rewrite Hw.
    apply elem_of_app. by left.
  - destruct (System.fetched s !! i) as [x|]; [|done].
    destruct (negb (truthy x)); [by simplify_eq|].
    destruct (Job.fromId (Queue.owner q) x (System.store s));
      by simplify_eq.
  - destruct (System.executing s !! i) as [job|] eqn:Hi; [|done].
    destruct (finishJob_views q job hasFailed (System.store s))
      as (Hw & _ & Hj & _).
    destruct (Queue.finishJob q job hasFailed (System.store s)) as [r' res].
    simplify_eq. simpl in *. fold n in Hw, Hj. rewrite Hw, Hj.
    intros x Hx.
    assert (x ≠ Job.id job) as Hne.
    { intros ->. apply (Hwp _ Hx), Ihp, Ieh.
      apply list_elem_of_fmap. exists job. split; [done|].
      by eapply list_elem_of_lookup_2. }
    destruct (keeps q hasFailed).
    + rewrite lookup_insert_ne by done. auto.
    + rewrite lookup_delete_ne by done. auto.
  - destruct (removeJob_views q jobId (System.store s)) as (Hj & _ & _ & Hl).
    destruct (Queue.removeJob q jobId (System.store s)) as [r' res].
    simplify_eq. simpl in *. fold n in Hj, Hl. rewrite Hj.
    intros x Hx.
    assert (x ≠ jobId ∧ x ∈ View.waiting n (System.store s)) as [Hne Hin].
    { case_decide as Hterm; destruct Hl as [Hl _]; rewrite Hl in Hx.
      - split; [|done]. intros ->.
        apply (Hwp _ Hx), Ihp. by apply It.
      - by apply list_elem_of_filter in Hx. }
    rewrite lookup_delete_ne by done. auto.
Qed.

Lemma run_recorded q acts s s' :
  let n := Queue.queueName (Queue.config q) in
  System.run q acts s = Some s' →
  NoDup (System.admitted s') →
  invariant n s → recorded n s → recorded n s'.
Proof.
  intros n. revert s.
  induction acts as [|a acts IH]; intros s H Hnd Hinv Hrec; simpl in H.
  - by simplify_eq.
  - destruct (System.step q a s) as [s1|] eqn:E; [|done].
    apply (IH s1 H Hnd).
    + eapply step_invariant; [done| |done].
      eapply NoDup_suffix; [|done]. by eapply run_admitted.
    + by eapply step_recorded.
Qed.

(** X13.  In every run from the empty queue that admits no id twice,
    each id on [waiting] can be looked up: a waiting job always has its
    record in the [jobs] hash. *)
Theorem waiting_jobs_are_recorded q (acts : list (System.action T)) s :
  System.run q acts System.init = Some s →
  NoDup (System.admitted s) →
  ∀ x, x ∈ View.waiting (Queue.queueName (Queue.config q)) (System.store s) →
       is_Some (Job.fromId (Queue.owner q) x (System.store s)).
Proof.
  intros Hrun Hnd x Hx. rewrite fromId_lookup. simpl.
  apply fmap_is_Some.
  eapply run_recorded; [done|done|apply invariant_init| |done].
  intros y Hy. by apply elem_of_nil in Hy.
Qed.
End Accounting.

(** ** The outcome of a sequential run *)
Section Outcome.
Context {T : Type}.
Implicit Types (r : Redis.db (serialized T)) (job : Job.t T) (q : Queue.t).
Implicit Types (jobs : list (string * T)).

Lemma keeps_config q1 q2 b :
  Queue.config q1 = Queue.config q2 → keeps q1 b = keeps q2 b.
Proof. unfold keeps. by intros ->. Qed.

Lemma retained_config q1 q2 (worker : T → Queue.outcome) b l :
  Queue.config q1 = Queue.config q2 →
  retained q1 worker b l = retained q2 worker b l.
Proof. unfold retained. intros H. by rewrite (keeps_config q1 q2 b H). Qed.

Lemma jobTick_full q (worker : T → Queue.outcome) r l x d st :
  let n := Queue.queueName (Queue.config q) in
  let b := raised (worker d) in
  Queue.concurrency q = 1%Z →
  (Queue.running q + Queue.queued q = 1)%Z →
  View.waiting n r = l ++ [x] →
  truthy x = true →
  View.jobs n r !! x = Some (Serialized d st) →
  ∃ q' r',
    Queue.jobTick q worker r
    = Some (q', r',
            [Queue.WorkerCalled x d; Queue.BookkeepingDone x;
             Queue.Emitted (event_of (worker d)) x])
    ∧ Queue.config q' = Queue.config q
    ∧ Queue.concurrency q' = 1%Z
    ∧ (Queue.running q' + Queue.queued q' = 1)%Z
    ∧ View.waiting n r' = l
    ∧ View.active n r' = filter (λ y, y ≠ x) (View.active n r)
    ∧ View.jobs n r'
      = (if keeps q b then <[x := Serialized d st]> (View.jobs n r)
         else delete x (View.jobs n r))
    ∧ View.succeeded n r'
      = (if negb b && keeps q b then {[x]} ∪ View.succeeded n r
         else View.succeeded n r)
    ∧ View.failed n r'
      = (if b && keeps q b then {[x]} ∪ View.failed n r
         else View.failed n r).
Proof.
  intros n b Hc Hrq Hw Ht Hj.
  destruct (getNextJob_snoc q r l x Hw) as [r1 Hnext].
  pose proof (getNextJob_views q r r1 x Hnext) as (Hw1 & Ha1 & Hj1 & Hs1 & Hf1).
  fold n in Hw1, Ha1, Hj1, Hs1, Hf1.
  rewrite Hw in Hw1. apply app_inj_tail in Hw1 as [Hw1 _].
  unfold Queue.jobTick. rewrite Hnext. simpl.
  rewrite decide_False by lia. rewrite Ht. simpl.
  rewrite fromId_lookup. simpl. fold n. rewrite Hj1, Hj. simpl.
  rewrite executeJob_log. simpl.
  set (q1 := Queue.Mk (Queue.config q) (Queue.concurrency q)
                      (Queue.running q + 1) (Queue.queued q - 1)).
  set (job := Job.Mk _ _ _ _).
  destruct (finishJob_views q1 job (raised (worker d)) r1)
    as (Hw2 & Ha2 & Hj2 & Hs2 & Hf2).
  simpl in Hw2, Ha2, Hj2, Hs2, Hf2. fold n b in Hw2, Ha2, Hj2, Hs2, Hf2.
  rewrite (keeps_config q1 q b eq_refl) in Hj2, Hs2, Hf2.
  eexists _, _. split; [done|].
  split; [by destruct (worker d)|]. split; [by destruct (worker d)|].
  split; [destruct (worker d); simpl; lia|].
  fold b. rewrite Hw2, Ha2, Hj2, Hs2, Hf2, Ha1, Hj1, Hs1, Hf1.
  split; [done|]. split; [|done].
  rewrite filter_cons_False; [done|]. by intros H.
Qed.

Lemma union_shift (x : string) (A B : gset string) :
  A ∪ ({[x]} ∪ B) = {[x]} ∪ A ∪ B.
Proof. by rewrite (assoc_L (∪)), (comm_L (∪) A). Qed.

Lemma retained_cons q (worker : T → Queue.outcome) b x d l :
  retained q worker b ((x, d) :: l)
  = (if bool_decide (raised (worker d) = b) && keeps q b
     then {[x]} ∪ retained q worker b l else retained q worker b l).
Proof. unfold retained. simpl. by destruct (_ && _). Qed.

Lemma ticks_outcome (worker : T → Queue.outcome) jobs :
  ∀ q r fuel,
  let n := Queue.queueName (Queue.config q) in
  let processed := take fuel jobs in
  Queue.concurrency q = 1%Z →
  (Queue.running q + Queue.queued q = 1)%Z →
  NoDup jobs.*1 →
  Forall (λ x, truthy x = true) jobs.*1 →
  View.waiting n r = rev jobs.*1 →
  View.active n r = [] →
  (∀ x d, (x, d) ∈ jobs → View.jobs n r !! x = Some (Serialized d created)) →
  let r' := (Queue.ticks fuel q worker r).1.2 in
  calls (Queue.ticks fuel q worker r).2 = processed
  ∧ View.waiting n r' = rev (drop fuel jobs).*1
  ∧ View.active n r' = []
  ∧ View.succeeded n r' = retained q worker false processed ∪ View.succeeded n r
  ∧ View.failed n r' = retained q worker true processed ∪ View.failed n r
  ∧ (∀ y, y ∉ processed.*1 → View.jobs n r' !! y = View.jobs n r !! y)
  ∧ (∀ x d, (x, d) ∈ processed →
       View.jobs n r' !! x
       = if keeps q (raised (worker d)) then Some (Serialized d created)
         else None).
Proof.
  induction jobs as [|[i d] jobs IH];
    intros q r fuel n processed Hc Hrq Hnd Ht Hw Ha Hj r'.
  - subst r' processed. rewrite ticks_blocked by done.
    rewrite take_nil, drop_nil. unfold retained. simpl. rewrite !union_empty_l_L.
    repeat (split; [done|]).
    intros x d H. by apply elem_of_nil in H.
  - destruct fuel as [|fuel].
    { subst r' processed. simpl. unfold retained. simpl. rewrite !union_empty_l_L.
      repeat (split; [done|]).
      intros x d' H. by apply elem_of_nil in H. }
    simpl in Hw, Hnd, Ht.
    apply NoDup_cons in Hnd as [Hi Hnd].
    apply Forall_cons in Ht as [Hti Ht].
    assert (View.jobs n r !! i = Some (Serialized d created)) as Hji
      by (apply Hj; by left).
    destruct (jobTick_full q worker r (rev jobs.*1) i d created
                Hc Hrq Hw Hti Hji)
      as (q1 & r1 & Htick & Hcfg & Hc1 & Hrq1 & Hw1 & Ha1 & Hj1 & Hs1 & Hf1).
    fold n in Hw1, Ha1, Hj1, Hs1, Hf1.
    rewrite Ha in Ha1. simpl in Ha1.
    assert (∀ y, y ≠ i → View.jobs n r1 !! y = View.jobs n r !! y) as Hfr.
    { intros y Hy. rewrite Hj1. destruct (keeps q _).
      - by rewrite lookup_insert_ne.
      - by rewrite lookup_delete_ne. }
    assert (∀ x d', (x, d') ∈ jobs → x ≠ i) as Hne.
    { intros x d' Hx ->. apply Hi. apply list_elem_of_fmap. by exists (i, d'). }
    specialize (IH q1 r1 fuel Hc1 Hrq1 Hnd Ht). rewrite Hcfg in IH.
    fold n in IH.
    destruct IH as (IHc & IHw & IHa & IHs & IHf & IHfr & IHj); [done..| |].
    { intros x d' Hx. rewrite Hfr by (by eapply Hne). apply Hj. by right. }
    subst r' processed. simpl. rewrite Htick.
    destruct (Queue.ticks fuel q1 worker r1) as [[q2 r2] log2].
    simpl in *. rewrite IHc, IHw, IHa, IHs, IHf, Hs1, Hf1.
    rewrite !(retained_config q1 q) by done. rewrite !retained_cons.
    split; [done|]. split; [done|]. split; [done|].
    split; [|split; [|split]].
    + unfold keeps.
      destruct (worker d), (Queue.keepOnSuccess (Queue.config q)); simpl;
        (done || apply union_shift).
    + unfold keeps.
      destruct (worker d), (Queue.keepOnFailure (Queue.config q)); simpl;
        (done || apply union_shift).
    + intros y Hy. apply not_elem_of_cons in Hy as [Hy1 Hy2].
      rewrite IHfr by done. by apply Hfr.
    + intros x d' [Hx|Hx]%elem_of_cons.
      * simplify_eq. rewrite IHfr.
        -- rewrite Hj1. destruct (keeps q _).
           ++ by rewrite lookup_insert_eq.
           ++ by rewrite lookup_delete_eq.
        -- intros Hin. apply Hi.
           apply list_elem_of_fmap in Hin as ([x' d''] & -> & Hin).
           apply list_elem_of_fmap. exists (x', d''). split; [done|].
           by apply (elem_of_sublist _ _ _ Hin), sublist_take.
      * rewrite (keeps_config q q1) by done. by apply IHj.
Qed.
End Outcome.

Section Outcome2.
Context {T : Type}.
Implicit Types (r : Redis.db (serialized T)) (q : Queue.t).

Lemma add_all_sets q (jobs : list (string * T)) r :
  let n := Queue.queueName (Queue.config q) in
  View.succeeded n (add_all q jobs r) = View.succeeded n r
  ∧ View.failed n (add_all q jobs r) = View.failed n r.
Proof.
  intros n. subst n. revert r.
  induction jobs as [|[i d] jobs IH]; intros r; [done|].
  simpl. destruct (IH (Queue.add q d i r).1) as [-> ->].
  destruct (View.jobs (Queue.queueName (Queue.config q)) r !! i)
    as [v|] eqn:E.
  - by rewrite add_present by (rewrite E; eauto).
  - by destruct (add_views q d i r E) as (_ & _ & _ & -> & ->).
Qed.

(** X7.  Jobs with distinct non-empty ids are admitted into an empty
    queue and the chain of ticks runs with [concurrency = 1] for any
    number [fuel] of ticks.  Then the worker was called on the first
    [fuel] jobs, in the order of admission; the others wait, in order, and
    can still be looked up as they were admitted; [active] is empty;
    [succeeded] and [failed] hold exactly the ids of the processed jobs
    whose outcome is retained; a processed job can be looked up, with its
    payload, exactly when its outcome is retained. *)
Theorem partial_run q (jobs : list (string * T))
    (worker : T → Queue.outcome) fuel :
  NoDup jobs.*1 →
  Forall (λ x, truthy x = true) jobs.*1 →
  let n := Queue.queueName (Queue.config q) in
  let processed := take fuel jobs in
  let run := Queue.ticks fuel (Queue.process q 1) worker
               (add_all q jobs Redis.empty) in
  calls run.2 = processed
  ∧ View.waiting n run.1.2 = rev (drop fuel jobs).*1
  ∧ View.active n run.1.2 = []
  ∧ View.succeeded n run.1.2 = retained q worker false processed
  ∧ View.failed n run.1.2 = retained q worker true processed
  ∧ (∀ x d, (x, d) ∈ drop fuel jobs →
       Job.fromId (Queue.owner q) x run.1.2
       = Some (Job.constructor (Queue.owner q) d x))
  ∧ (∀ x d, (x, d) ∈ processed →
       Job.data <$> Job.fromId (Queue.owner q) x run.1.2
       = if keeps q (raised (worker d)) then Some d else None).
Proof.
  intros Hnd Ht n processed run.
  destruct (add_all_views q jobs Redis.empty Hnd) as (Hw & Ha & Hj); [done|].
  rewrite app_nil_r in Hw.
  destruct (add_all_sets q jobs Redis.empty) as [Hs Hf].
  destruct (ticks_outcome worker jobs (Queue.process q 1)
              (add_all q jobs Redis.empty) fuel)
    as (H1 & H2 & H3 & H4 & H5 & H6 & H7); try done.
  cbn [Queue.process Queue.config] in H2, H3, H4, H5, H6, H7.
  fold n run processed in H1, H2, H3, H4, H5, H6, H7.
  fold n in Hs, Hf, Hj. rewrite Hs in H4. rewrite Hf in H5.
  change (View.succeeded n Redis.empty) with (∅ : gset string) in H4.
  change (View.failed n Redis.empty) with (∅ : gset string) in H5.
  rewrite union_empty_r_L in H4, H5.
  rewrite (retained_config (Queue.process q 1) q) in H4, H5 by done.
  repeat (split; [done|]). split.
  - intros x d Hx. rewrite fromId_lookup. cbn [Job.queueName Queue.owner].
    fold n. rewrite H6.
    + rewrite (Hj x d); [done|].
      by apply (elem_of_sublist _ _ _ Hx), sublist_drop.
    + intros Hin. apply list_elem_of_fmap in Hin as ([x' d'] & -> & Hin).
      rewrite <- (take_drop fuel jobs), fmap_app in Hnd.
      apply NoDup_app in Hnd as (_ & Hdis & _).
      apply (Hdis x').
      * apply list_elem_of_fmap. by exists (x', d').
      * apply list_elem_of_fmap. by exists (x', d).
  - intros x d Hx. rewrite fromId_lookup. cbn [Job.queueName Queue.owner].
    fold n. rewrite (H7 x d Hx).
    rewrite (keeps_config (Queue.process q 1) q) by done.
    by destruct (keeps q _).
Qed.
End Outcome2.

(** ** The further properties at concrete inputs *)

(** X2 at the queues "mail" and "billing". *)
Lemma queues_are_isolated_witness :
  structures "billing" (Queue.removeJob mail "A" shared_store).1
  = structures "billing" shared_store
  ∧ structures "billing" (Queue.destroy mail shared_store).1
    = structures "billing" shared_store.
Proof.
  assert (Queue.queueName (Queue.config mail) ≠ "billing") as Hn
    by (vm_compute; discriminate).
  pose proof (queues_are_isolated mail "billing" shared_store Hn)
    as (_ & _ & _ & H4 & H5).
  split; [apply H4|apply H5].
Defined.

(** X4 at the jobs "A" (removed) and "B" (spared). *)
Lemma removeJob_spares_others_witness :
  Job.fromId (Queue.owner mail) "B" (Queue.removeJob mail "A" shared_store).1
  = Job.fromId (Queue.owner mail) "B" shared_store.
Proof.
  refine (proj1 (removeJob_spares_others mail "A" shared_store "B" _)).
  discriminate.
Defined.

(** X7 at three jobs and two ticks. *)
Lemma partial_run_witness :
  calls (Queue.ticks 2 (Queue.process mail 1) (λ _ : nat, Queue.Throws)
           (add_all mail [("A", 1); ("B", 2); ("C", 3)] Redis.empty)).2
  = [("A", 1); ("B", 2)].
Proof.
  refine (proj1 (partial_run mail [("A", 1); ("B", 2); ("C", 3)]
                   (λ _, Queue.Throws) 2 _ _)).
  - apply (bool_decide_unpack _). by vm_compute.
  - repeat constructor.
Defined.

(** X8 at a waiting list that holds the empty id. *)
Lemma jobTick_skips_unusable_witness :
  ∃ q' r' log,
    Queue.jobTick (Queue.process mail 1) (λ _ : nat, Queue.Resolves)
      (Queue.add mail 5 "" Redis.empty).1 = Some (q', r', log)
    ∧ calls log = [] ∧ emits log = [].
Proof.
  destruct (jobTick_skips_unusable (Queue.process mail 1)
              (λ _ : nat, Queue.Resolves)
              (Queue.add mail 5 "" Redis.empty).1 [] "")
    as (q' & r' & log & H1 & H2 & H3 & _).
  - vm_compute. reflexivity.
  - left. reflexivity.
  - exists q', r', log. split; [exact H1|]. split; [exact H2|exact H3].
Defined.

(** X12 at a run on "mail". *)
Lemma run_accounting_witness :
  ∃ s, System.run mail mail_run System.init = Some s
       ∧ (List.length (System.fetched s) + List.length (System.handed s)
          ≤ List.length (System.popped s))%nat.
Proof.
  destruct (System.run mail mail_run System.init) as [s|] eqn:E;
    [|vm_compute in E; discriminate E].
  exists s. split; [reflexivity|].
  apply (run_accounting mail mail_run s E).
Defined.

(** X13 at the same run. *)
Lemma waiting_jobs_are_recorded_witness :
  ∃ s, System.run mail mail_run System.init = Some s
       ∧ System.admitted s = ["C"; "B"; "A"]
       ∧ View.waiting "mail" (System.store s) = ["C"]
       ∧ is_Some (Job.fromId (Queue.owner mail) "C" (System.store s)).
Proof.
  destruct (System.run mail mail_run System.init) as [s|] eqn:E;
    [|vm_compute in E; discriminate E].
  assert (System.admitted <$> System.run mail mail_run System.init
          = Some ["C"; "B"; "A"]) as Ha by (vm_compute; reflexivity).
  assert (View.waiting "mail" ∘ System.store
            <$> System.run mail mail_run System.init = Some ["C"]) as Hw
    by (vm_compute; reflexivity).
  rewrite E in Ha, Hw. injection Ha as Ha. injection Hw as Hw.
  exists s. split; [reflexivity|]. split; [exact Ha|]. split; [exact Hw|].
  apply (waiting_jobs_are_recorded mail mail_run s E).
  - rewrite Ha. apply (bool_decide_unpack _). by vm_compute.
  - change (Queue.queueName (Queue.config mail)) with "mail".
    rewrite Hw. by left.
Defined.
